(** * gru: catalog engine and minion runtime

    A shallow embedding of the Go sources

      - [module/module.go]   (loader of a module, import graph and its DOT
                              output, resource collection, resource graph)
      - [catalog/catalog.go] (catalog [Load] and [Run])
      - [minion/etcd.go]     (start of the minion, periodic runner, backlog
                              drain, task listener, task runner, task
                              processing, classifiers)
      - [gructl/command/list_command.go] (the list command)

    Go values that are returned together with an [error] are kept as pairs
    (value, optional error) wherever the source hands both to its caller,
    maps are [gmap]s, and the effects of a function (calls on resources,
    writes to the configured writer, requests to the key/value store, sends
    on the task channel) are recorded in explicit state that is threaded
    through the model. *)

From Stdlib Require Import String Ascii DecimalString.
From stdpp Require Import base option list gmap strings.

Set Default Proof Using "Type".
Open Scope string_scope.
Open Scope list_scope.

(** ** Errors

    Every [fmt.Errorf] site of the modelled code has a constructor of its
    own, so that a theorem can say which names an error carries; [Error]
    renders the message the way the format string of the source does.
    [ErrOther] stands for an error produced outside of the modelled code
    (a resource provider, the store, the JSON decoder, a child process). *)

Inductive error : Type :=
  | ErrModuleNotFound (main : string)
  | ErrImportNotInPath (m x : string)
  | ErrDuplicateResource (id m prev : string)
  | ErrMissingDependency (name dep : string)
  | ErrCircularDependency
  | ErrUnknownNode (name : string)
  | ErrOther (msg : string).

Definition Error (e : error) : string :=
  match e with
  | ErrModuleNotFound main =>
      "Module " +:+ main +:+ " not found in module path"
  | ErrImportNotInPath m x =>
      "Module " +:+ m +:+ " imports " +:+ x +:+ ", which is not in the module path"
  | ErrDuplicateResource id m prev =>
      "Duplicate resource " +:+ id +:+ " in " +:+ m +:+
      ", previous declaration was in " +:+ prev
  | ErrMissingDependency name dep =>
      "Resource " +:+ name +:+ " wants " +:+ dep +:+ ", which does not exist"
  | ErrCircularDependency => "Circular dependency found in graph"
  | ErrUnknownNode name => "Node " +:+ name +:+ " is not in the graph"
  | ErrOther msg => msg
  end.

(** A Go call that only uses its value when the error is [nil]. *)
Inductive result (A : Type) : Type :=
  | Ok (a : A)
  | Failed (e : error).
Arguments Ok {A} a.
Arguments Failed {A} e.

(** How a call of the model ends.  [Panicked] is a nil pointer that the Go
    code dereferences; [OutOfFuel] only exists for the model of the recursive
    closure in [ImportGraph] and is shown unreachable below. *)
Inductive outcome (A : Type) : Type :=
  | Returned (a : A)
  | Panicked
  | OutOfFuel.
Arguments Returned {A} a.
Arguments Panicked {A}.
Arguments OutOfFuel {A}.

(** ** Package fmt: the newline of the format strings and the verb %d on a
    length. *)

Definition nl : string := String (ascii_of_nat 10) EmptyString.

Definition decimal (n : nat) : string := NilZero.string_of_uint (Nat.to_uint n).

(** ** Package graph *)

Module graph.

(** Modelled from the spec: the package [graph] is imported by the sources
    but is not part of them.  Section 4.1 of the specification gives its
    contract: nodes are keyed by name, adding a node twice is idempotent,
    adding an edge twice is a no-op, adding an edge to an unknown node is
    an error, and [Sort] is Kahn's algorithm with ties broken by the
    lexicographic order of the names, returning the residual nodes together
    with a circular-dependency error when no node is ready.  An edge
    (a, b) reads: a depends on b. *)
Record Node : Type := NewNode { Name : string }.

Record Graph : Type := mkGraph {
  Nodes : list Node;
  Edges : list (Node * Node);
}.

Definition NewGraph : Graph := mkGraph [] [].

#[global] Instance Node_eq_dec : EqDecision Node.
Proof. solve_decision. Defined.

#[global] Instance Name_inj : Inj (=) (=) Name.
Proof. by intros [a] [b] [= ->]. Qed.

#[global] Instance NewNode_inj : Inj (=) (=) NewNode.
Proof. by intros a b [= ->]. Qed.

Definition GetNode (g : Graph) (name : string) : option Node :=
  List.find (fun n => String.eqb (Name n) name) (Nodes g).

Definition AddNode (g : Graph) (n : Node) : Graph :=
  match GetNode g (Name n) with
  | Some _ => g
  | None => mkGraph (Nodes g ++ [n]) (Edges g)
  end.

Definition AddEdge (g : Graph) (from to : Node) : Graph * option error :=
  match GetNode g (Name from), GetNode g (Name to) with
  | None, _ => (g, Some (ErrUnknownNode (Name from)))
  | _, None => (g, Some (ErrUnknownNode (Name to)))
  | Some _, Some _ =>
      if bool_decide ((from, to) ∈ Edges g) then (g, None)
      else (mkGraph (Nodes g) (Edges g ++ [(from, to)]), None)
  end.

(** A node is ready when none of its dependencies is still waiting. *)
Definition ready (g : Graph) (waiting : list Node) (n : Node) : bool :=
  forallb (fun e => negb (bool_decide (e.1 = n))
                    || negb (bool_decide (e.2 ∈ waiting)))
          (Edges g).

Definition least (n : Node) (ns : list Node) : Node :=
  fold_left (fun best x => if String.ltb (Name x) (Name best) then x else best)
            ns n.

Fixpoint kahn (fuel : nat) (g : Graph) (waiting sorted : list Node)
  : list Node * option error :=
  match fuel, waiting with
  | _, [] => (sorted, None)
  | O, _ => (waiting, Some ErrCircularDependency)
  | S fuel', _ =>
      match List.filter (ready g waiting) waiting with
      | [] => (waiting, Some ErrCircularDependency)
      | n :: ns =>
          let pick := least n ns in
          kahn fuel' g
               (List.filter (fun x => negb (bool_decide (x = pick))) waiting)
               (sorted ++ [pick])
      end
  end.

Definition Sort (g : Graph) : list Node * option error :=
  kahn (length (Nodes g)) g (Nodes g) [].

End graph.

(** ** Package resource *)

Module resource.

(** Modelled from the spec: the package [resource] is imported by the
    sources but is not part of them.  Section 4.2 of the specification
    gives the life states ([Want] ranges over present, running, absent and
    stopped, [Current] over these and unknown; the Go code compares the two
    with [==], so they share one type) and the seven operations of a
    resource.  [StateString] is the text that the verb %s prints. *)
Inductive StateName : Type :=
  | StateUnknown | StatePresent | StateAbsent | StateRunning | StateStopped.

#[global] Instance StateName_eq_dec : EqDecision StateName.
Proof. solve_decision. Defined.

Definition StateString (s : StateName) : string :=
  match s with
  | StateUnknown => "unknown"
  | StatePresent => "present"
  | StateAbsent => "absent"
  | StateRunning => "running"
  | StateStopped => "stopped"
  end.

Record State : Type := mkState {
  Current : StateName;
  Want : StateName;
  Update : bool;
}.

(** The operations of a resource act on the managed system, a value of type
    [World] that every call receives and hands on.  [DoUpdate] is the
    method [Update()]; the name [Update] belongs to the field of [State]. *)
Record Resource (World : Type) : Type := mkResource {
  ResourceID : string;
  WantBefore : list string;
  WantAfter : list string;
  Evaluate : World -> World * result State;
  Create : World -> World * option error;
  Delete : World -> World * option error;
  DoUpdate : World -> World * option error;
}.
Arguments mkResource {World}.
Arguments ResourceID {World}.
Arguments WantBefore {World}.
Arguments WantAfter {World}.
Arguments Evaluate {World}.
Arguments Create {World}.
Arguments Delete {World}.
Arguments DoUpdate {World}.

End resource.

(** ** Package module *)

Module module.
Import graph resource.

Section WithWorld.
Context {World : Type}.

(** [Import]: the fields [Name] and [Path] of the source. *)
Record Import : Type := mkImport {
  ImportName : string;
  ImportPath : string;
}.

Record Module : Type := mkModule {
  Name : string;
  Resources : list (Resource World);
  Imports : list Import;
  UnknownKeys : list string;
}.

(** [nodes] of [ImportGraph]: one fresh node per key of [modules]. *)
Definition module_nodes (modules : gmap string Module) : gmap string Node :=
  map_imap (fun n _ => Some (NewNode n)) modules.

(** The body of [for _, mi := range m.Imports] inside the closure
    [buildImportGraphFunc]; [self] is the closure itself.  The value
    that the recursive call returns is dropped, as in the source, and
    only the graph that it has extended is kept. *)
Fixpoint range_Imports (modules : gmap string Module)
    (nodes : gmap string Node)
    (self : Graph -> Module -> outcome (Graph * option error))
    (m : Module) (imports : list Import) (g : Graph)
  : outcome (Graph * option error) :=
  match imports with
  | [] => Returned (g, None)
  | mi :: rest =>
      match modules !! ImportName mi with
      | None =>
          Returned (g, Some (ErrImportNotInPath (Name m) (ImportName mi)))
      | Some imported =>
          match self g imported with
          | Returned (g1, _) =>
              match nodes !! Name m, nodes !! ImportName mi with
              | Some from, Some to =>
                  range_Imports modules nodes self m rest
                                (AddEdge g1 from to).1
              | _, _ => Panicked
              end
          | Panicked => Panicked
          | OutOfFuel => OutOfFuel
          end
      end
  end.

(** The closure [buildImportGraphFunc].  It is recursive through the
    imports of the imported modules, so the model takes fuel; the graph
    [g] that the closure captures and mutates is passed in and out.
    [nodes[m.Name]] is the nil pointer when the module does not stand
    under its own name in [modules]; the graph, whose nodes are keyed by
    name, is then handed a node without a name, and the model stops with
    [Panicked]. *)
Fixpoint buildImportGraphFunc (modules : gmap string Module)
    (nodes : gmap string Node) (fuel : nat) (g : Graph) (m : Module)
  : outcome (Graph * option error) :=
  match fuel with
  | O => OutOfFuel
  | S fuel' =>
      match GetNode g (Name m) with
      | Some _ => Returned (g, None)
      | None =>
          match nodes !! Name m with
          | None => Panicked
          | Some n =>
              range_Imports modules nodes
                (buildImportGraphFunc modules nodes fuel')
                m (Imports m) (AddNode g n)
          end
      end
  end.

Section ImportGraph.
(** [DiscoverAndLoad] is not part of the sources: it is a parameter,
    the result of walking the module path. *)
Variable DiscoverAndLoad : string -> result (gmap string Module).

Definition ImportGraph (main path : string)
  : outcome (Graph * option error) :=
  let g := NewGraph in
  match DiscoverAndLoad path with
  | Failed err => Returned (g, Some err)
  | Ok modules =>
      match modules !! main with
      | None => Returned (g, Some (ErrModuleNotFound main))
      | Some m =>
          buildImportGraphFunc modules (module_nodes modules)
                               (S (size modules)) g m
      end
  end.
End ImportGraph.

(** [ResourceCollection]: the inner loop over the resources of a module
    and the outer loop over the modules.  Both maps are returned so that
    the outer loop can go on with them. *)
Fixpoint range_Resources (mname : string) (rs : list (Resource World))
    (moduleMap : gmap string string)
    (resourceMap : gmap string (Resource World))
  : gmap string string * gmap string (Resource World) * option error :=
  match rs with
  | [] => (moduleMap, resourceMap, None)
  | r :: rest =>
      let id := ResourceID r in
      match resourceMap !! id with
      | Some _ =>
          (moduleMap, resourceMap,
           Some (ErrDuplicateResource id mname (default "" (moduleMap !! id))))
      | None =>
          range_Resources mname rest (<[id := mname]> moduleMap)
                          (<[id := r]> resourceMap)
      end
  end.

(** The slice holds pointers: [None] is a nil [*Module], whose field
    [Resources] the loop reads. *)
Fixpoint range_Modules (modules : list (option Module))
    (moduleMap : gmap string string)
    (resourceMap : gmap string (Resource World))
  : outcome (gmap string (Resource World) * option error) :=
  match modules with
  | [] => Returned (resourceMap, None)
  | None :: _ => Panicked
  | Some m :: rest =>
      match range_Resources (Name m) (Resources m) moduleMap resourceMap with
      | (_, resourceMap', Some err) => Returned (resourceMap', Some err)
      | (moduleMap', resourceMap', None) =>
          range_Modules rest moduleMap' resourceMap'
      end
  end.

Definition ResourceCollection (modules : list (option Module))
  : outcome (gmap string (Resource World) * option error) :=
  range_Modules modules ∅ ∅.

(** [ResourceCollectionGraph].  Go leaves the order in which [range]
    visits a map open, so each of the two loops takes the sequence of
    entries that the runtime happened to choose ([first] and [second]);
    the theorems ask of them only that they enumerate the map.  The
    graph starts empty ([graph.New()], as [graph.NewGraph()] in
    [ImportGraph]). *)
Definition range_nodes (names : list string) (g : Graph) : Graph :=
  fold_left (fun g name => AddNode g (NewNode name)) names g.

Definition resource_nodes (names : list string) : gmap string Node :=
  list_to_map ((fun name => (name, NewNode name)) <$> names).

(** [nodes[name]]: a missing key gives the nil pointer. *)
Fixpoint range_after (resources : gmap string (Resource World))
    (nodes : gmap string Node) (name : string) (after : list string)
    (g : Graph) : outcome (Graph * option error) :=
  match after with
  | [] => Returned (g, None)
  | dep :: rest =>
      match resources !! dep with
      | None => Returned (g, Some (ErrMissingDependency name dep))
      | Some _ =>
          match nodes !! name, nodes !! dep with
          | Some from, Some to =>
              range_after resources nodes name rest (AddEdge g from to).1
          | _, _ => Panicked
          end
      end
  end.

Fixpoint range_before (resources : gmap string (Resource World))
    (nodes : gmap string Node) (name : string) (before : list string)
    (g : Graph) : outcome (Graph * option error) :=
  match before with
  | [] => Returned (g, None)
  | dep :: rest =>
      match resources !! dep with
      | None => Returned (g, Some (ErrMissingDependency name dep))
      | Some _ =>
          match nodes !! dep, nodes !! name with
          | Some from, Some to =>
              range_before resources nodes name rest (AddEdge g from to).1
          | _, _ => Panicked
          end
      end
  end.

Fixpoint range_connect (resources : gmap string (Resource World))
    (nodes : gmap string Node)
    (entries : list (string * Resource World)) (g : Graph)
  : outcome (Graph * option error) :=
  match entries with
  | [] => Returned (g, None)
  | (name, r) :: rest =>
      let before := WantBefore r in
      let after := WantAfter r in
      match range_after resources nodes name after g with
      | Returned (g1, None) =>
          match range_before resources nodes name before g1 with
          | Returned (g2, None) => range_connect resources nodes rest g2
          | stop => stop
          end
      | stop => stop
      end
  end.

Definition ResourceCollectionGraph
    (first second : list (string * Resource World))
    (resources : gmap string (Resource World))
  : outcome (Graph * option error) :=
  let g := range_nodes first.*1 NewGraph in
  let nodes := resource_nodes first.*1 in
  range_connect resources nodes second g.

(** [New] *)
Definition New (name : string) : Module := mkModule name [] [] [].

(** An item of an object list of package [hcl/ast], as far as the loader
    looks at it: the value of each of its key tokens ([Token.Value()], a
    string), the position of its value as [Pos().String()] prints it, and
    the source text of its value, which only the decoder and the providers
    read. *)
Record ObjectItem : Type := mkObjectItem {
  Keys : list string;
  Position : string;
  Val : string;
}.

(** The functions of package [hcl] that the loader calls.  [hcl_Parse]
    answers [Ok None] for a document whose top-level node is not an object
    list; [ObjectList_Filter] is the method [Filter] of an object list. *)
Record Hcl : Type := mkHcl {
  hcl_Parse : string -> result (option (list ObjectItem));
  ObjectList_Filter : string -> list ObjectItem -> list ObjectItem;
  hcl_DecodeObject : ObjectItem -> result Import;
}.

Section Load.
Variable hcl : Hcl.
(** [resource.Registry]: the provider of each registered resource type. *)
Variable Registry : gmap string (string -> ObjectItem -> result (Resource World)).

(** [validKeys] *)
Definition validKeys : gset string := dom Registry ∪ {["import"]}.

(** [hclLoadImport]: the loop over the filtered items, on the module as
    it stands; the module is returned as the loop leaves it. *)
Fixpoint range_hclImport (m : Module) (items : list ObjectItem)
  : Module * option error :=
  match items with
  | [] => (m, None)
  | item :: rest =>
      let position := Position item in
      if bool_decide (length (Keys item) ≠ 0) then
        (m, Some (ErrOther ("Invalid module import found in " +:+ Name m
                              +:+ ":" +:+ position)))
      else
        match hcl_DecodeObject hcl item with
        | Failed err => (m, Some err)
        | Ok i =>
            range_hclImport
              (mkModule (Name m) (Resources m) (Imports m ++ [i]) (UnknownKeys m))
              rest
        end
  end.

Definition hclLoadImport (m : Module) (root : list ObjectItem)
  : Module * option error :=
  let hclImport := ObjectList_Filter hcl "import" root in
  range_hclImport m hclImport.

(** [hclLoadResources].  An item that passed the test on the number of
    its keys has one key, which is [item.Keys[0]]. *)
Fixpoint range_hclResources (resourceType : string) (m : Module)
    (items : list ObjectItem) : Module * option error :=
  match items with
  | [] => (m, None)
  | item :: rest =>
      let position := Position item in
      match Keys item with
      | [resourceName] =>
          match Registry !! resourceType with
          | None =>
              (m, Some (ErrOther ("Unknown resource type '" +:+ resourceType
                                    +:+ "' found in " +:+ Name m +:+ ":"
                                    +:+ position)))
          | Some Provider =>
              match Provider resourceName item with
              | Failed err => (m, Some err)
              | Ok r =>
                  range_hclResources resourceType
                    (mkModule (Name m) (Resources m ++ [r]) (Imports m)
                              (UnknownKeys m))
                    rest
              end
          end
      | _ =>
          (m, Some (ErrOther ("Invalid resource declaration found in "
                                +:+ Name m +:+ ":" +:+ position)))
      end
  end.

Definition hclLoadResources (resourceType : string) (m : Module)
    (root : list ObjectItem) : Module * option error :=
  let hclResources := ObjectList_Filter hcl resourceType root in
  range_hclResources resourceType m hclResources.

(** [for name := range resource.Registry] of [Load], on the sequence of
    names in which the runtime visits the map. *)
Fixpoint range_Registry (order : list string) (root : list ObjectItem)
    (m : Module) : Module * option error :=
  match order with
  | [] => (m, None)
  | name :: rest =>
      match hclLoadResources name m root with
      | (m, Some err) => (m, Some err)
      | (m, None) => range_Registry rest root m
      end
  end.

(** [for _, item := range root.Items] of [Load]; [item.Keys[0]] is out
    of range for an item without a key. *)
Fixpoint range_Items (valid : gset string) (items : list ObjectItem)
    (m : Module) : outcome Module :=
  match items with
  | [] => Returned m
  | item :: rest =>
      match Keys item with
      | [] => Panicked
      | key :: _ =>
          range_Items valid rest
            (if bool_decide (key ∈ valid) then m
             else mkModule (Name m) (Resources m) (Imports m)
                           (UnknownKeys m ++ [key]))
      end
  end.

(** [Load].  [r] is what [ioutil.ReadAll] makes of the reader. *)
Definition Load (order : list string) (name : string) (r : result string)
  : outcome (Module * option error) :=
  let m := New name in
  match r with
  | Failed err => Returned (m, Some err)
  | Ok input =>
  match hcl_Parse hcl input with
  | Failed err => Returned (m, Some err)
  | Ok None => Returned (m, Some (ErrOther ("Missing root node in " +:+ name)))
  | Ok (Some root) =>
  match hclLoadImport m root with
  | (m, Some err) => Returned (m, Some err)
  | (m, None) =>
  match range_Registry order root m with
  | (m, Some err) => Returned (m, Some err)
  | (m, None) =>
  let valid := validKeys in
  match range_Items valid root m with
  | Returned m => Returned (m, None)
  | Panicked => Panicked
  | OutOfFuel => OutOfFuel
  end end end end end.
End Load.

Section ImportGraphAsDot.
(** Not part of the sources, hence parameters: the discovery of the
    modules, and of package [graph] the topological sort and the text that
    [AsDot] writes for a graph under a name. *)
Variable DiscoverAndLoad : string -> result (gmap string Module).
Variable Sort : Graph -> list Node * option error.
Variable AsDot : string -> Graph -> string.

End ImportGraphAsDot.

End WithWorld.
Arguments Module : clear implicits.
End module.

(** ** Package catalog *)

Module catalog.
Import graph resource module.

(** Of [module.Config], which is not part of the sources, the code reads
    the module path and the writer of the resources.  The writer is the
    component [written] of the run state below. *)
Record ModuleConfig : Type := mkModuleConfig {
  Path : string;
}.

Record Config : Type := mkConfig {
  Main : string;
  DryRun : bool;
  ModuleConfig_ : ModuleConfig;
}.

(** The four operations that act on the managed system, and one record per
    call made on a resource, with the error it returned. *)
Inductive Op : Type := OpEvaluate | OpCreate | OpDelete | OpUpdate.

#[global] Instance Op_eq_dec : EqDecision Op.
Proof. solve_decision. Defined.

Record Call : Type := mkCall {
  call_id : string;
  call_op : Op;
  call_err : option error;
}.

Section WithWorld.
Context {World : Type}.

(** Slices of pointers and of interface values: [None] is nil. *)
Record Catalog : Type := mkCatalog {
  Modules : list (option (Module World));
  Resources : list (option (Resource World));
  Config_ : Config;
}.

(** What a run has done so far: the managed system, the strings handed
    to the writer (one per [fmt.Fprintf]), the calls made on resources. *)
Record RunState : Type := mkRunState {
  world : World;
  written : list string;
  calls : list Call;
}.

Definition Fprintf (st : RunState) (s : string) : RunState :=
  mkRunState (world st) (written st ++ [s]) (calls st).

Definition invoke (id : string) (op : Op)
    (f : World -> World * option error) (st : RunState)
  : RunState * option error :=
  let '(w, err) := f (world st) in
  (mkRunState w (written st) (calls st ++ [mkCall id op err]), err).

Definition invoke_Evaluate (r : Resource World) (st : RunState)
  : RunState * result State :=
  let '(w, res) := Evaluate r (world st) in
  let err := match res with Ok _ => None | Failed e => Some e end in
  (mkRunState w (written st) (calls st ++ [mkCall (ResourceID r) OpEvaluate err]),
   res).

(** How the [switch] of [Run] is left: by the [continue] of its default
    case, or at its end with the value of [resourceErr]. *)
Inductive switch_exit : Type :=
  | Continue (st : RunState)
  | Leave (st : RunState) (resourceErr : option error).

Definition is_should_be (id : string) (state : State) : string :=
  id +:+ " is " +:+ StateString (Current state) +:+ ", should be "
     +:+ StateString (Want state) +:+ nl.

Definition transition (r : Resource World) (state : State) (st : RunState)
  : switch_exit :=
  let id := ResourceID r in
  if bool_decide (Want state = Current state) then
    Leave st None
  else if bool_decide (Want state = StatePresent)
          || bool_decide (Want state = StateRunning) then
    if bool_decide (Current state = StateAbsent)
       || bool_decide (Current state = StateStopped) then
      let st := Fprintf st (is_should_be id state) in
      let '(st, resourceErr) := invoke id OpCreate (Create r) st in
      Leave st resourceErr
    else Leave st None
  else if bool_decide (Want state = StateAbsent)
          || bool_decide (Want state = StateStopped) then
    if bool_decide (Current state = StatePresent)
       || bool_decide (Current state = StateRunning) then
      let st := Fprintf st (is_should_be id state) in
      let '(st, resourceErr) := invoke id OpDelete (Delete r) st in
      Leave st resourceErr
    else Leave st None
  else
    Continue (Fprintf st
      (id +:+ " unknown state(s): want " +:+ StateString (Want state)
          +:+ ", current " +:+ StateString (Current state) +:+ nl)).

(** One iteration of the loop of [Run]. *)
Definition process (config : Config) (r : Resource World) (st : RunState)
  : RunState :=
  let id := ResourceID r in
  let '(st, res) := invoke_Evaluate r st in
  match res with
  | Failed err => Fprintf st (id +:+ " " +:+ Error err +:+ nl)
  | Ok state =>
      if DryRun config then st
      else
        match transition r state st with
        | Continue st => st
        | Leave st resourceErr =>
            let st :=
              match resourceErr with
              | Some err => Fprintf st (id +:+ " " +:+ Error err +:+ nl)
              | None => st
              end in
            if Update state then
              let st := Fprintf st
                (id +:+ " resource is out of date, will be updated" +:+ nl) in
              let '(st, err) := invoke id OpUpdate (DoUpdate r) st in
              match err with
              | Some err => Fprintf st (id +:+ " " +:+ Error err +:+ nl)
              | None => st
              end
            else st
        end
  end.

(** [for _, r := range c.Resources]; a nil interface value panics at
    [r.ResourceID()]. *)
Fixpoint range_Resources (config : Config)
    (rs : list (option (Resource World))) (st : RunState)
  : outcome RunState :=
  match rs with
  | [] => Returned st
  | None :: _ => Panicked
  | Some r :: rest => range_Resources config rest (process config r st)
  end.

(** [Run] on a system in state [w]: the final run state and the error
    that [Run] returns. *)
Definition Run (c : Catalog) (w : World) : outcome (RunState * option error) :=
  let st := mkRunState w [] [] in
  let st := Fprintf st
    ("Loaded " +:+ decimal (length (Resources c)) +:+ " resources from "
               +:+ decimal (length (Modules c)) +:+ " modules" +:+ nl) in
  match range_Resources (Config_ c) (Resources c) st with
  | Returned st => Returned (st, None)
  | Panicked => Panicked
  | OutOfFuel => OutOfFuel
  end.

Section Load.
(** Not part of the sources, hence parameters: the discovery of the
    modules under a path, the topological sort of package [graph], and
    the method [DependencyGraph] of a resource collection (the sources
    hold the function [ResourceCollectionGraph] of the same purpose).
    [Load] hands [DiscoverAndLoad] the module configuration and
    [ImportGraph] hands it the path in that configuration; the model
    gives it the path both times, so both calls see the same modules. *)
Variable DiscoverAndLoad : string -> result (gmap string (Module World)).
Variable Sort : Graph -> list Node * option error.
Variable DependencyGraph :
  gmap string (Resource World) -> outcome (Graph * option error).

Definition Load (config : Config) : outcome (Catalog * option error) :=
  let c := mkCatalog [] [] config in
  match DiscoverAndLoad (Path (ModuleConfig_ config)) with
  | Failed err => Returned (c, Some err)
  | Ok modules =>
  match ImportGraph DiscoverAndLoad (Main config)
                    (Path (ModuleConfig_ config)) with
  | Panicked => Panicked
  | OutOfFuel => OutOfFuel
  | Returned (_, Some err) => Returned (c, Some err)
  | Returned (modulesGraph, None) =>
  match Sort modulesGraph with
  | (_, Some err) => Returned (c, Some err)
  | (modulesSorted, None) =>
  let c := mkCatalog
             (Modules c ++ ((fun node => modules !! graph.Name node)
                              <$> modulesSorted))
             (Resources c) config in
  match ResourceCollection (Modules c) with
  | Panicked => Panicked
  | OutOfFuel => OutOfFuel
  | Returned (_, Some err) => Returned (c, Some err)
  | Returned (collection, None) =>
  match DependencyGraph collection with
  | Panicked => Panicked
  | OutOfFuel => OutOfFuel
  | Returned (_, Some err) => Returned (c, Some err)
  | Returned (collectionGraph, None) =>
  match Sort collectionGraph with
  | (_, Some err) => Returned (c, Some err)
  | (collectionSorted, None) =>
  Returned
    (mkCatalog (Modules c)
               (Resources c ++ ((fun node => collection !! graph.Name node)
                                  <$> collectionSorted))
               config,
     None)
  end end end end end end.
End Load.

End WithWorld.
Arguments Catalog : clear implicits.
Arguments RunState : clear implicits.
End catalog.

(** ** Package minion *)

Module minion.

(** Modelled from the spec: the type [MinionTask] is declared outside of
    the sources; section 3 of the specification lists its fields.  The
    task id is kept as the text that [String()] renders, times are epoch
    seconds. *)
Record MinionTask : Type := mkMinionTask {
  TaskID : string;
  Command : string;
  Args : list string;
  IsConcurrent : bool;
  TimeReceived : Z;
  TimeProcessed : Z;
  Result : string;
  Error_ : string;
}.

(** Modelled from the spec: the interface [MinionClassifier] and
    [NewSimpleClassifier] are declared outside of the sources; a classifier
    is {Key, Description, Value}.  Each getter returns a string together
    with an error, and [SetClassifier] uses the string whatever the error
    is. *)
Record MinionClassifier : Type := mkMinionClassifier {
  GetKey : string * option error;
  GetDescription : string * option error;
  GetValue : string * option error;
}.

Record SimpleClassifier : Type := NewSimpleClassifier {
  Key : string;
  Description : string;
  Value : string;
}.

(** The part of the etcd client that the minion uses. *)
Inductive PrevExistType : Type := PrevIgnore | PrevExist | PrevNoExist.

Record SetOptions : Type := mkSetOptions {
  SetPrevExist : PrevExistType;
  TTL : Z;
}.

Record GetOptions : Type := mkGetOptions {
  Recursive : bool;
  Sort : bool;
}.

(** [time.Hour], a duration in nanoseconds. *)
Definition time_Hour : Z := 3600000000000.

#[local] Unset Elimination Schemes.
Inductive Node : Type :=
  mkNode (Key_ : string) (Value_ : string) (Nodes_ : list Node).
#[local] Set Elimination Schemes.

Definition NodeKey (n : Node) : string := let 'mkNode k _ _ := n in k.
Definition NodeValue (n : Node) : string := let 'mkNode _ v _ := n in v.
Definition NodeNodes (n : Node) : list Node := let 'mkNode _ _ ns := n in ns.

Record Response : Type := mkResponse {
  Action : string;
  RespNode : Node;
}.

(** What the minion does to the outside, in the order in which it does
    it: requests to the store, calls of the JSON codec, the child process,
    sends on the task channel, lines handed to the logger. *)
Inductive Event : Type :=
  | EvGet (key : string) (opts : GetOptions)
  | EvSet (key value : string) (opts : SetOptions)
  | EvDelete (key : string)
  | EvUnmarshal (data : string)
  | EvMarshal (out : result string)
  | EvExec (command : string) (args : list string)
  | EvSend (task : MinionTask)
  | EvLog (msg : string).

(** The outside of the minion: the store behind [etcdclient.KeysAPI], the
    child processes of [os/exec], the clock, [encoding/json] and
    [filepath.Join].  [Sys] is the state of the store and of the host. *)
Record Host (Sys : Type) : Type := mkHost {
  kapi_Get : Sys -> string -> GetOptions -> Sys * result Response;
  kapi_Set : Sys -> string -> string -> SetOptions -> Sys * option error;
  kapi_Delete : Sys -> string -> Sys * option error;
  cmd_Run : Sys -> string -> list string -> Sys * (string * option error);
  time_Now_Unix : Sys -> Z;
  json_Unmarshal : string -> MinionTask * option error;
  json_Marshal_task : MinionTask -> result string;
  json_Marshal_classifier : SimpleClassifier -> result string;
  filepath_Join : string -> string -> string;
}.
Arguments kapi_Get {Sys}.
Arguments kapi_Set {Sys}.
Arguments kapi_Delete {Sys}.
Arguments cmd_Run {Sys}.
Arguments time_Now_Unix {Sys}.
Arguments json_Unmarshal {Sys}.
Arguments json_Marshal_task {Sys}.
Arguments json_Marshal_classifier {Sys}.
Arguments filepath_Join {Sys}.

Record etcdMinion : Type := mketcdMinion {
  name : string;
  rootDir : string;
  queueDir : string;
  logDir : string;
  classifierDir : string;
  id : string;
}.

Section WithHost.
Context {Sys : Type} (host : Host Sys).

Record MinionState : Type := mkMinionState {
  sys : Sys;
  trace : list Event;
}.

Definition emit (st : MinionState) (e : Event) : MinionState :=
  mkMinionState (sys st) (trace st ++ [e]).

Definition Get (st : MinionState) (key : string) (opts : GetOptions)
  : MinionState * result Response :=
  let '(s, res) := kapi_Get host (sys st) key opts in
  (mkMinionState s (trace st ++ [EvGet key opts]), res).

Definition Set_ (st : MinionState) (key value : string) (opts : SetOptions)
  : MinionState * option error :=
  let '(s, err) := kapi_Set host (sys st) key value opts in
  (mkMinionState s (trace st ++ [EvSet key value opts]), err).

Definition Delete (st : MinionState) (key : string)
  : MinionState * option error :=
  let '(s, err) := kapi_Delete host (sys st) key in
  (mkMinionState s (trace st ++ [EvDelete key]), err).

(** [EtcdUnmarshalTask] *)
Definition EtcdUnmarshalTask (st : MinionState) (node : Node)
  : MinionState * (MinionTask * option error) :=
  let st := emit st (EvUnmarshal (NodeValue node)) in
  let '(task, err) := json_Unmarshal host (NodeValue node) in
  let st :=
    match err with
    | Some e => emit st (EvLog ("Invalid task " +:+ NodeKey node +:+ ": "
                                  +:+ Error e +:+ nl))
    | None => st
    end in
  (st, (task, err)).

(** The body of [for _, node := range backlog] in [checkQueue].  The send
    is recorded when the statement [c <- task] is reached; the model does
    not say when a receiver takes the task. *)
Definition drain (st : MinionState) (node : Node) : MinionState :=
  let '(st, (task, err)) := EtcdUnmarshalTask st node in
  let '(st, _) := Delete st (NodeKey node) in
  match err with
  | Some _ => st
  | None => emit st (EvSend task)
  end.

(** [checkQueue]: the state afterwards and the returned error. *)
Definition checkQueue (m : etcdMinion) (st : MinionState)
  : MinionState * option error :=
  let opts := mkGetOptions true true in
  let '(st, res) := Get st (queueDir m) opts in
  match res with
  | Failed _ => (st, None)
  | Ok resp =>
      let backlog := NodeNodes (RespNode resp) in
      if bool_decide (length backlog = 0) then (st, None)
      else
        let st := emit st (EvLog ("Found " +:+ decimal (length backlog)
                                    +:+ " tasks in backlog")) in
        (fold_left drain backlog st, None)
  end.

(** [strings.ToLower] and [strings.EqualFold], on the ASCII letters. *)
Definition lower (c : ascii) : ascii :=
  let n := nat_of_ascii c in
  if (65 <=? n)%nat && (n <=? 90)%nat then ascii_of_nat (n + 32) else c.

Fixpoint ToLower (s : string) : string :=
  match s with
  | EmptyString => EmptyString
  | String c rest => String (lower c) (ToLower rest)
  end.

Definition EqualFold (s t : string) : bool :=
  String.eqb (ToLower s) (ToLower t).



(** [saveTask] *)
Definition saveTask (m : etcdMinion) (t : MinionTask) (st : MinionState)
  : MinionState * option error :=
  let taskKey := filepath_Join host (logDir m) (TaskID t) in
  let out := json_Marshal_task host t in
  let st := emit st (EvMarshal out) in
  match out with
  | Failed err =>
      (emit st (EvLog ("Failed to serialize task " +:+ TaskID t +:+ ": "
                         +:+ Error err +:+ nl)),
       Some err)
  | Ok data =>
      let opts := mkSetOptions PrevIgnore 0 in
      let '(st, err) := Set_ st taskKey data opts in
      match err with
      | Some e =>
          (emit st (EvLog ("Failed to save task " +:+ TaskID t +:+ ": "
                             +:+ Error e +:+ nl)),
           Some e)
      | None => (st, None)
      end
  end.

(** [processTask]: the task as the function leaves it (the source
    mutates it through the pointer), the state, and the returned error.
    The deferred [saveTask] runs last, on the mutated task. *)
Definition processTask (m : etcdMinion) (t : MinionTask) (st : MinionState)
  : MinionTask * MinionState * option error :=
  let st := emit st (EvLog ("Processing task " +:+ TaskID t +:+ nl)) in
  let st := emit st (EvExec (Command t) (Args t)) in
  let '(s, (buf, cmdError)) := cmd_Run host (sys st) (Command t) (Args t) in
  let st := mkMinionState s (trace st) in
  let t := mkMinionTask (TaskID t) (Command t) (Args t) (IsConcurrent t)
                        (TimeReceived t) (time_Now_Unix host (sys st))
                        (Result t) (Error_ t) in
  let t := mkMinionTask (TaskID t) (Command t) (Args t) (IsConcurrent t)
                        (TimeReceived t) (TimeProcessed t)
                        buf (Error_ t) in
  let '(t, st) :=
    match cmdError with
    | Some e =>
        (mkMinionTask (TaskID t) (Command t) (Args t) (IsConcurrent t)
                      (TimeReceived t) (TimeProcessed t) (Result t)
                      (Error e),
         emit st (EvLog ("Failed to process task " +:+ TaskID t +:+ nl)))
    | None =>
        (t, emit st (EvLog ("Finished processing task " +:+ TaskID t +:+ nl)))
    end in
  let '(st, _) := saveTask m t st in
  (t, st, cmdError).

(** [SetClassifier].  The three getters assign to the same [err]; the
    test that follows sees the one of [GetValue]. *)
Definition SetClassifier (m : etcdMinion) (c : MinionClassifier)
    (st : MinionState) : MinionState * option error :=
  let opts := mkSetOptions PrevIgnore time_Hour in
  let '(key, err) := GetKey c in
  let '(description, err) := GetDescription c in
  let '(value, err) := GetValue c in
  match err with
  | Some e => (st, Some e)
  | None =>
      let klassifier := NewSimpleClassifier key description value in
      let out := json_Marshal_classifier host klassifier in
      let st := emit st (EvMarshal out) in
      match out with
      | Failed e =>
          (emit st (EvLog ("Failed to serialize classifier: " +:+ key +:+ nl)),
           Some e)
      | Ok data =>
          let klassifierKey := filepath_Join host (classifierDir m) key in
          let '(st, err) := Set_ st klassifierKey data opts in
          match err with
          | Some e =>
              (emit st (EvLog ("Failed to set classifier " +:+ key +:+ ": "
                                 +:+ Error e +:+ nl)),
               Some e)
          | None => (st, None)
          end
      end
  end.


(** [setName] *)
Definition setName (m : etcdMinion) (st : MinionState)
  : MinionState * option error :=
  let nameKey := filepath_Join host (rootDir m) "name" in
  let opts := mkSetOptions PrevIgnore 0 in
  Set_ st nameKey (name m) opts.





(** The loop of [checkQueue] as [Serve] runs it: the channel is
    unbuffered and no goroutine receives from it yet, so the first send
    [c <- task] does not return.  The loop either ends ([None]) or stays in
    the send of a task. *)
Fixpoint range_backlog (backlog : list Node) (st : MinionState)
  : MinionState * option MinionTask :=
  match backlog with
  | [] => (st, None)
  | node :: rest =>
      let '(st, (task, err)) := EtcdUnmarshalTask st node in
      let '(st, _) := Delete st (NodeKey node) in
      match err with
      | Some _ => range_backlog rest st
      | None => (st, Some task)
      end
  end.

Definition checkQueue_unreceived (m : etcdMinion) (st : MinionState)
  : MinionState * option MinionTask :=
  let opts := mkGetOptions true true in
  let '(st, res) := Get st (queueDir m) opts in
  match res with
  | Failed _ => (st, None)
  | Ok resp =>
      let backlog := NodeNodes (RespNode resp) in
      if bool_decide (length backlog = 0) then (st, None)
      else
        let st := emit st (EvLog ("Found " +:+ decimal (length backlog)
                                    +:+ " tasks in backlog")) in
        range_backlog backlog st
  end.

(** The goroutines that [Serve] starts, and where its own goroutine
    stands in the end: in the send of a task of the backlog, in the receive
    from [quit], or behind its [return nil]. *)
Inductive goroutine : Type := GoPeriodicRunner | GoTaskListener | GoTaskRunner.

Inductive standing : Type :=
  | InSend (task : MinionTask)
  | InReceiveQuit
  | ReturnedNil.

Record Served : Type := mkServed {
  served : MinionState;
  started : list goroutine;
  stands : standing;
}.

(** [Serve], followed on its own goroutine; [quit] is the signal that
    arrives on the channel of that name, if one does. *)
Definition Serve (m : etcdMinion) (quit : option string) (st : MinionState)
  : Served :=
  let '(st, _) := setName m st in
  let st := emit st (EvLog ("Minion " +:+ id m +:+ " is ready to serve")) in
  let started := [GoPeriodicRunner] in
  match checkQueue_unreceived m st with
  | (st, Some task) => mkServed st started (InSend task)
  | (st, None) =>
      let started := started ++ [GoTaskListener] in
      let started := started ++ [GoTaskRunner] in
      match quit with
      | None => mkServed st started InReceiveQuit
      | Some s =>
          let st := emit st (EvLog ("Received " +:+ s
                                      +:+ " signal, shutting down")) in
          mkServed st started ReturnedNil
      end
  end.

End WithHost.
Arguments MinionState : clear implicits.
Arguments Served : clear implicits.
End minion.

(** ** Package command of gructl *)

Module command.

(** How the command ends: it returns, having printed nothing or one
    table, or the process exits. *)
Inductive ending : Type :=
  | Return (printed : option (list (string * string)))
  | Exit (code : Z) (err : error).

Section WithClient.
Context {Sys : Type}.
(** Modelled from the spec: the client of the minions in the store, the
    function [parseClassifierPattern] and [displayError] belong to the
    package but are not part of the sources.  Section 6.4 of the
    specification: the command enumerates the minions whose classifiers
    match the pattern and prints their uuid and name; it exits with code 1
    on a backend error, so [displayError err 1] ends the process; and it
    prints nothing when no minion matches.  [Sys] is the state of the
    store, and a table is kept as its rows. *)
Variable parseClassifierPattern : Sys -> string -> Sys * (list string * option error).
Variable MinionName : Sys -> string -> Sys * (string * option error).

(** [for _, minion := range minions] of [execListCommand] *)
Fixpoint range_minions (minions : list string) (s : Sys)
    (table : list (string * string)) : Sys * result (list (string * string)) :=
  match minions with
  | [] => (s, Ok table)
  | minion :: rest =>
      let '(s, (name, err)) := MinionName s minion in
      match err with
      | Some e => (s, Failed e)
      | None => range_minions rest s (table ++ [(minion, name)])
      end
  end.

(** [execListCommand], on the value of the flag [with-classifier]. *)
Definition execListCommand (cFlag : string) (s : Sys) : Sys * ending :=
  let '(s, (minions, err)) := parseClassifierPattern s cFlag in
  match err with
  | Some e => (s, Exit 1 e)
  | None =>
      if bool_decide (length minions = 0) then (s, Return None)
      else
        let table := [] in
        let table := table ++ [("MINION", "NAME")] in
        match range_minions minions s table with
        | (s, Failed e) => (s, Exit 1 e)
        | (s, Ok table) => (s, Return (Some table))
        end
  end.

End WithClient.
End command.

(** ** Vocabulary of the statements *)

(** The line that [Run] writes for an error of a resource: "%s %s\n". *)
Definition error_line (id : string) (e : error) : string :=
  id +:+ " " +:+ Error e +:+ nl.

(** The resources on which a run has called [Evaluate], in order. *)
Definition evaluated (ks : list catalog.Call) : list string :=
  catalog.call_id <$> filter (fun k => catalog.call_op k = catalog.OpEvaluate) ks.

(** The state in which [Run] enters its loop, and the state after the turns
    of the resources [rs]. *)
Definition start {World : Type} (c : catalog.Catalog World) (w : World)
  : catalog.RunState World :=
  catalog.Fprintf (catalog.mkRunState w [] [])
    ("Loaded " +:+ decimal (length (catalog.Resources c)) +:+ " resources from "
               +:+ decimal (length (catalog.Modules c)) +:+ " modules" +:+ nl).

Definition turns {World : Type} (config : catalog.Config)
    (rs : list (resource.Resource World)) (st : catalog.RunState World)
  : catalog.RunState World :=
  fold_left (fun st r => catalog.process config r st) rs st.

(** The rows of the transition table of section 4.4. *)
Definition create_row (s : resource.State) : bool :=
  (bool_decide (resource.Want s = resource.StatePresent)
   || bool_decide (resource.Want s = resource.StateRunning))
  && (bool_decide (resource.Current s = resource.StateAbsent)
      || bool_decide (resource.Current s = resource.StateStopped)).

Definition delete_row (s : resource.State) : bool :=
  (bool_decide (resource.Want s = resource.StateAbsent)
   || bool_decide (resource.Want s = resource.StateStopped))
  && (bool_decide (resource.Current s = resource.StatePresent)
      || bool_decide (resource.Current s = resource.StateRunning)).


(** The life states that a resource may declare. *)
Definition declared_state (s : resource.StateName) : bool :=
  bool_decide (s ∈ [resource.StatePresent; resource.StateRunning;
                    resource.StateAbsent; resource.StateStopped]).


(** The edges that the declarations of the resources ask for: from a
    resource to each resource it wants to come after, and to a resource from
    each resource it wants to come before. *)
Definition wanted_edge {World : Type}
    (resources : gmap string (resource.Resource World))
    (e : graph.Node * graph.Node) : Prop :=
  ∃ name r dep,
    resources !! name = Some r
    ∧ ((dep ∈ resource.WantAfter r ∧ e = (graph.NewNode name, graph.NewNode dep))
       ∨ (dep ∈ resource.WantBefore r ∧ e = (graph.NewNode dep, graph.NewNode name))).

(** The resource [name] lists the target [dep], which is not in the map. *)
Definition missing_target {World : Type}
    (resources : gmap string (resource.Resource World))
    (name dep : string) : Prop :=
  ∃ r, resources !! name = Some r
       ∧ dep ∈ resource.WantAfter r ++ resource.WantBefore r
       ∧ resources !! dep = None.

(** The declarations of a list of modules, in the order in which
    [ResourceCollection] meets them: the declaring module and the resource
    id. *)
Definition declarations {World : Type} (ms : list (module.Module World))
  : list (string * string) :=
  ms ≫= fun m => (fun r => (module.Name m, resource.ResourceID r))
                   <$> module.Resources m.

(** The error for the first import of the list that is not in the module
    map, if there is one. *)
Fixpoint first_missing {World : Type} (modules : gmap string (module.Module World))
    (mname : string) (imports : list module.Import) : option error :=
  match imports with
  | [] => None
  | mi :: rest =>
      match modules !! module.ImportName mi with
      | None => Some (ErrImportNotInPath mname (module.ImportName mi))
      | Some _ => first_missing modules mname rest
      end
  end.

(** A module map as [DiscoverAndLoad] builds it: every module stands under
    its own name. *)
Definition keyed {World : Type} (modules : gmap string (module.Module World))
  : Prop :=
  ∀ k m, modules !! k = Some m → module.Name m = k.

(** The names of the modules that the graph does not hold yet. *)
Definition unvisited {World : Type} (modules : gmap string (module.Module World))
    (g : graph.Graph) : gset string :=
  filter (fun k => graph.GetNode g k = None) (dom modules).

(** A graph that holds a node for every resource of the map. *)
Definition covers {World : Type} (resources : gmap string (resource.Resource World))
    (g : graph.Graph) : Prop :=
  ∀ k, is_Some (resources !! k) → graph.NewNode k ∈ graph.Nodes g.

(** What the two maps of [ResourceCollection] know after the declarations
    [seen]: every id was met once, the resource map holds the ids met, and
    the module map holds for each of them a module that declared it. *)
Definition agrees {World : Type} (seen : list (string * string))
    (mm : gmap string string) (rm : gmap string (resource.Resource World))
  : Prop :=
  NoDup seen.*2
  ∧ (∀ id, is_Some (rm !! id) ↔ id ∈ seen.*2)
  ∧ (∀ id, is_Some (rm !! id) → ∃ n, mm !! id = Some n ∧ (n, id) ∈ seen).

(** The imports of a module that the closure [buildImportGraphFunc]
    follows: those before the first one that is not in the module map. *)
Fixpoint followed {World : Type} (modules : gmap string (module.Module World))
    (imports : list module.Import) : list string :=
  match imports with
  | [] => []
  | mi :: rest =>
      match modules !! module.ImportName mi with
      | None => []
      | Some _ => module.ImportName mi :: followed modules rest
      end
  end.

(** The module [a] imports the module [b], and the closure follows that
    import; the modules that can be reached from [main] in this way. *)
Definition imports_of {World : Type} (modules : gmap string (module.Module World))
    (a b : string) : Prop :=
  ∃ m, modules !! a = Some m ∧ b ∈ followed modules (module.Imports m).

Definition reachable {World : Type} (modules : gmap string (module.Module World))
    (main k : string) : Prop :=
  rtc (imports_of modules) main k.

(** The graph [g'] is the graph [g] after a walk from the modules [roots]:
    it holds the nodes of [g], the roots, and only modules that a root
    reaches; and every module that the walk added has all the imports that
    the closure follows in the graph. *)
Definition extends {World : Type} (modules : gmap string (module.Module World))
    (g g' : graph.Graph) (roots : list string) : Prop :=
  (∀ n : graph.Node, n ∈ graph.Nodes g → n ∈ graph.Nodes g')
  ∧ (∀ n : graph.Node, n ∈ graph.Nodes g' →
       n ∈ graph.Nodes g ∨ ∃ i, i ∈ roots ∧ reachable modules i (graph.Name n))
  ∧ (∀ i, i ∈ roots → graph.NewNode i ∈ graph.Nodes g')
  ∧ (∀ a b, graph.NewNode a ∈ graph.Nodes g' → (graph.NewNode a ∉ graph.Nodes g) →
       imports_of modules a b → graph.NewNode b ∈ graph.Nodes g')
  ∧ (NoDup (graph.Nodes g) → NoDup (graph.Nodes g')).

(** The edges of [g'] are those of [g], the imports of the modules that the
    walk added, and the imports [more] of the module [k]. *)
Definition connects {World : Type} (modules : gmap string (module.Module World))
    (g g' : graph.Graph) (k : string) (more : list string) : Prop :=
  ∀ a b, (graph.NewNode a, graph.NewNode b) ∈ graph.Edges g' ↔
    (graph.NewNode a, graph.NewNode b) ∈ graph.Edges g
    ∨ (graph.NewNode a ∈ graph.Nodes g' ∧ (graph.NewNode a ∉ graph.Nodes g)
       ∧ imports_of modules a b)
    ∨ (a = k ∧ b ∈ more).

(** [x] stands before [y] in the list. *)
Definition before {A : Type} (x y : A) (l : list A) : Prop :=
  ∃ l1 l2 l3, l = l1 ++ x :: l2 ++ y :: l3.

(** The resource map holds the resources [seen], each under its id, and
    nothing else. *)
Definition holds {World : Type} (seen : list (resource.Resource World))
    (rm : gmap string (resource.Resource World)) : Prop :=
  ∀ id r, rm !! id = Some r ↔ r ∈ seen ∧ resource.ResourceID r = id.

(** The lines that [Run] writes for the calls that returned an error. *)
Definition error_lines (ks : list catalog.Call) : list string :=
  omap (fun k => error_line (catalog.call_id k) <$> catalog.call_err k) ks.

(** The resource needs nothing: whenever its evaluation succeeds, it is in
    its declared state and up to date. *)
Definition settled {World : Type} (r : resource.Resource World) : Prop :=
  ∀ w w' s, resource.Evaluate r w = (w', Ok s) →
    resource.Want s = resource.Current s ∧ resource.Update s = false.

(** The calls that follow a successful evaluation in a run that acts: the
    action of the row that the pair matches, and the update, which is left
    out only when the resource is skipped for its unknown declared state. *)
Definition life_action (s : resource.State) : list catalog.Op :=
  if create_row s then [catalog.OpCreate]
  else if delete_row s then [catalog.OpDelete]
  else [].

Definition update_action (s : resource.State) : list catalog.Op :=
  if resource.Update s
     && (bool_decide (resource.Want s = resource.Current s)
         || declared_state (resource.Want s))
  then [catalog.OpUpdate] else [].

(** The first key of each item of a document that has one. *)
Definition first_keys (items : list module.ObjectItem) : list string :=
  omap (fun item => head (module.Keys item)) items.

(** The import block [item] has no key and decodes to [i]. *)
Definition decodes (hcl : module.Hcl) (item : module.ObjectItem)
    (i : module.Import) : Prop :=
  module.Keys item = [] ∧ module.hcl_DecodeObject hcl item = Ok i.

(** The block [item] of the resource type [kind] has one key, its name, and
    the provider of the type makes the resource [r] of it. *)
Definition provides {World : Type}
    (Registry : gmap string (string -> module.ObjectItem -> result (resource.Resource World)))
    (kind : string) (item : module.ObjectItem) (r : resource.Resource World) : Prop :=
  ∃ name Provider,
    module.Keys item = [name] ∧ Registry !! kind = Some Provider
    ∧ Provider name item = Ok r.

(** ** Example inputs *)

(** A resource on a system without state: [Evaluate] answers [res], and the
    three actions answer [create], [delete] and [update]. *)
Definition fixed_resource (id : string) (res : result resource.State)
    (create delete update : option error) : resource.Resource unit :=
  resource.mkResource id [] []
    (fun w => (w, res)) (fun w => (w, create)) (fun w => (w, delete))
    (fun w => (w, update)).

Definition nginx : resource.Resource unit :=
  fixed_resource "package[nginx]"
    (Ok (resource.mkState resource.StateAbsent resource.StatePresent false))
    None None None.

Definition example_config (dry : bool) : catalog.Config :=
  catalog.mkConfig "main" dry (catalog.mkModuleConfig "/etc/gru/modules").

Definition nginx_catalog (dry : bool) : catalog.Catalog unit :=
  catalog.mkCatalog [] [Some nginx] (example_config dry).





(** A resource whose evaluation fails, one whose creation fails and whose
    update fails, and one that is in its declared state. *)
Definition broken : list (resource.Resource unit) :=
  [ fixed_resource "service[ntpd]" (Failed (ErrOther "exit status 1"))
      None None None;
    fixed_resource "package[tmux]"
      (Ok (resource.mkState resource.StateAbsent resource.StatePresent true))
      (Some (ErrOther "no such package")) None (Some (ErrOther "locked"));
    fixed_resource "file[hosts]"
      (Ok (resource.mkState resource.StatePresent resource.StatePresent false))
      None None None ].

Definition broken_catalog : catalog.Catalog unit :=
  catalog.mkCatalog [] (Some <$> broken) (example_config false).

(** The trace of a minion without the lines of the logger, and the tasks
    sent on the channel, in order. *)
Fixpoint without_log (tr : list minion.Event) : list minion.Event :=
  match tr with
  | [] => []
  | minion.EvLog _ :: rest => without_log rest
  | e :: rest => e :: without_log rest
  end.


(** What the minion does with one entry of its queue: it deserializes the
    value, deletes the key, and sends the task if the value was one. *)
Definition consume {Sys : Type} (host : minion.Host Sys) (node : minion.Node)
  : list minion.Event :=
  minion.EvUnmarshal (minion.NodeValue node)
  :: minion.EvDelete (minion.NodeKey node)
  :: match minion.json_Unmarshal host (minion.NodeValue node) with
     | (task, None) => [minion.EvSend task]
     | (_, Some _) => []
     end.


(** What one answer of the watcher leads to. *)
Definition handled {Sys : Type} (host : minion.Host Sys)
    (next : result minion.Response) : list minion.Event :=
  match next with
  | Failed _ => []
  | Ok resp =>
      if minion.EqualFold (minion.ToLower (minion.Action resp)) "delete" then []
      else consume host (minion.RespNode resp)
  end.

(** The task as [processTask] leaves it, given what the child process
    printed and returned at the time [now]. *)
Definition processed (t : minion.MinionTask) (now : Z) (buf : string)
    (cmdError : option error) : minion.MinionTask :=
  minion.mkMinionTask (minion.TaskID t) (minion.Command t) (minion.Args t)
    (minion.IsConcurrent t) (minion.TimeReceived t) now buf
    (match cmdError with
     | Some e => Error e
     | None => minion.Error_ t
     end).





(** The first entry that deserializes, as a task, and the entries up to and
    including it (all entries when none deserializes). *)
Fixpoint first_task {Sys : Type} (host : minion.Host Sys) (nodes : list minion.Node)
  : option minion.MinionTask :=
  match nodes with
  | [] => None
  | node :: rest =>
      match minion.json_Unmarshal host (minion.NodeValue node) with
      | (task, None) => Some task
      | (_, Some _) => first_task host rest
      end
  end.

Fixpoint upto_first_task {Sys : Type} (host : minion.Host Sys)
    (nodes : list minion.Node) : list minion.Node :=
  match nodes with
  | [] => []
  | node :: rest =>
      match minion.json_Unmarshal host (minion.NodeValue node) with
      | (_, None) => [node]
      | (_, Some _) => node :: upto_first_task host rest
      end
  end.

(** A host without state.  Its store holds a backlog of three entries, the
    second of which is no task; its decoder takes every text but the empty
    one for the id of a task that runs [uptime]; its child processes print
    a line and succeed. *)
Definition example_task (id : string) (err : string) : minion.MinionTask :=
  minion.mkMinionTask id "uptime" [] false 0 0 "" err.

Definition example_backlog : list minion.Node :=
  [ minion.mkNode "/gru/minion/m/queue/t1" "t1" [];
    minion.mkNode "/gru/minion/m/queue/t1b" "" [];
    minion.mkNode "/gru/minion/m/queue/t2" "t2" [] ].

Definition example_host : minion.Host unit :=
  minion.mkHost unit
    (fun s key _ => (s, Ok (minion.mkResponse "get" (minion.mkNode key "" example_backlog))))
    (fun s _ _ _ => (s, None))
    (fun s _ => (s, None))
    (fun s _ _ => (s, ("up 3 days", None)))
    (fun _ => 1446336000%Z)
    (fun data => if String.eqb data ""
                 then (example_task "" "", Some (ErrOther "unexpected end of JSON input"))
                 else (example_task data "", None))
    (fun t => Ok (minion.TaskID t +:+ ":" +:+ minion.Result t +:+ ":" +:+ minion.Error_ t))
    (fun c => Ok (minion.Key c +:+ "=" +:+ minion.Value c))
    (fun dir file => dir +:+ "/" +:+ file).

Definition example_minion : minion.etcdMinion :=
  minion.mketcdMinion "m" "/gru/minion/m" "/gru/minion/m/queue"
    "/gru/minion/m/log" "/gru/minion/m/classifier" "m".

Definition idle : minion.MinionState unit := minion.mkMinionState tt [].

(** Two modules that both declare [package[nginx]]; [m1] is the main module
    and imports [m2]. *)
Definition m1 : module.Module unit :=
  module.mkModule "m1" [nginx] [module.mkImport "m2" "m2.hcl"] [].

Definition m2 : module.Module unit := module.mkModule "m2" [nginx] [] [].

Definition nginx_twice : gmap string (module.Module unit) :=
  <["m1" := m1]> (<["m2" := m2]> ∅).

(** The module [site] imports [base], and [base] imports a module that is
    not in the module path. *)
Definition site : module.Module unit :=
  module.mkModule "site" [] [module.mkImport "base" "base.hcl"] [].

Definition base : module.Module unit :=
  module.mkModule "base" [] [module.mkImport "users" "users.hcl"] [].

Definition dangling : gmap string (module.Module unit) :=
  <["site" := site]> (<["base" := base]> ∅).

Definition main_config (main : string) : catalog.Config :=
  catalog.mkConfig main false (catalog.mkModuleConfig "/etc/gru/modules").

(** [DependencyGraph] as [ResourceCollectionGraph], with both loops in the
    order of the map. *)
Definition example_DependencyGraph (rm : gmap string (resource.Resource unit))
  : outcome (graph.Graph * option error) :=
  module.ResourceCollectionGraph (map_to_list rm) (map_to_list rm) rm.

Definition example_Load (modules : gmap string (module.Module unit))
    (main : string) : outcome (catalog.Catalog unit * option error) :=
  catalog.Load (fun _ => Ok modules) graph.Sort example_DependencyGraph
               (main_config main).

(** Three resources: [A] wants to come after [B], [B] after [C], and [C]
    wants to come before [A]. *)
Definition ordered (id : string) (before after : list string)
  : resource.Resource unit :=
  resource.mkResource id before after
    (fun w => (w, Ok (resource.mkState resource.StatePresent resource.StatePresent false)))
    (fun w => (w, None)) (fun w => (w, None)) (fun w => (w, None)).

Definition chain_entries : list (string * resource.Resource unit) :=
  [ ("A", ordered "A" [] ["B"]);
    ("B", ordered "B" [] ["C"]);
    ("C", ordered "C" ["A"] []) ].

Definition chain : gmap string (resource.Resource unit) :=
  list_to_map chain_entries.

(** [A] wants to come after [Z], which is not declared. *)
Definition orphan : gmap string (resource.Resource unit) :=
  <["A" := ordered "A" [] ["Z"]]> ∅.

(** A classifier whose key and description could not be read, but whose
    value could. *)
Definition half_read : minion.MinionClassifier :=
  minion.mkMinionClassifier ("", Some (ErrOther "no key"))
    ("", Some (ErrOther "no description")) ("x86_64", None).










(** Resources that need nothing, one of which cannot be evaluated. *)
Definition calm : list (resource.Resource unit) :=
  [ fixed_resource "file[hosts]"
      (Ok (resource.mkState resource.StatePresent resource.StatePresent false))
      None None None;
    fixed_resource "service[ntpd]" (Failed (ErrOther "exit status 1"))
      None None None ].

Definition calm_catalog : catalog.Catalog unit :=
  catalog.mkCatalog [] (Some <$> calm) (example_config false).

Definition broken_dry_catalog : catalog.Catalog unit :=
  catalog.mkCatalog [] (Some <$> broken) (example_config true).

(** The host of the example with a codec that cannot serialize a task. *)
Definition mute_host : minion.Host unit :=
  minion.mkHost unit
    (minion.kapi_Get example_host) (minion.kapi_Set example_host)
    (minion.kapi_Delete example_host) (minion.cmd_Run example_host)
    (minion.time_Now_Unix example_host) (minion.json_Unmarshal example_host)
    (fun _ => Failed (ErrOther "json: unsupported value"))
    (minion.json_Marshal_classifier example_host)
    (minion.filepath_Join example_host).

(** A document of four blocks: an import, a package, a block of a type that
    is not registered, and a package without a name.  The example parser
    reads every text but the empty one as the first three of them, and the
    text "bad" as an import block followed by one that carries a label; the
    example filter keeps the items whose first key is the one asked for, and
    strips that key. *)
Definition example_items : list module.ObjectItem :=
  [ module.mkObjectItem ["import"] "1:8" "base";
    module.mkObjectItem ["package"; "nginx"] "5:17" "state = present";
    module.mkObjectItem ["motd"] "9:6" "welcome";
    module.mkObjectItem ["package"] "13:9" "state = present" ].

Definition labelled_import : list module.ObjectItem :=
  [ module.mkObjectItem ["import"] "1:8" "base";
    module.mkObjectItem ["import"; "users"] "5:16" "users" ].

Definition example_Filter (key : string) (items : list module.ObjectItem)
  : list module.ObjectItem :=
  omap (fun item =>
          match module.Keys item with
          | k :: keys =>
              if String.eqb k key
              then Some (module.mkObjectItem keys (module.Position item)
                                             (module.Val item))
              else None
          | [] => None
          end) items.

Definition example_hcl : module.Hcl :=
  module.mkHcl
    (fun input => if String.eqb input "" then Ok None
                  else if String.eqb input "bad" then Ok (Some labelled_import)
                  else Ok (Some (take 3 example_items)))
    example_Filter
    (fun item => Ok (module.mkImport (module.Val item) (module.Val item +:+ ".hcl"))).

Definition example_package (name : string) : resource.Resource unit :=
  fixed_resource ("package[" +:+ name +:+ "]")
    (Ok (resource.mkState resource.StateAbsent resource.StatePresent false))
    None None None.

Definition example_Registry
  : gmap string (string -> module.ObjectItem -> result (resource.Resource unit)) :=
  {[ "package" := fun name _ => Ok (example_package name) ]}.

(** A store with two minions, the second of which has no name. *)
Definition example_parseClassifierPattern (s : unit) (pattern : string)
  : unit * (list string * option error) :=
  (s, (["5f4c2a1e"; "9b7d3c0a"], None)).

Definition example_MinionName (s : unit) (minion : string)
  : unit * (string * option error) :=
  (s, if String.eqb minion "5f4c2a1e" then ("kevin", None)
      else ("", Some (ErrOther "Key not found"))).

(** * Properties *)

(** ** The graph *)

Section GraphFacts.
Import graph.
Implicit Types (g : Graph) (n from to : Node) (k : string).

Lemma GetNode_is_Some g k : is_Some (GetNode g k) ↔ NewNode k ∈ Nodes g.
Proof.
  unfold GetNode. induction (Nodes g) as [|[k'] ns IH]; simpl.
  - split; [by intros [? ?]|by intros ?%elem_of_nil].
  - destruct (String.eqb_spec k' k) as [->|Hne].
    + split; [intros _; left|by eauto].
    + rewrite IH. split; [by right|].
      intros [?|?]%elem_of_cons; [congruence|done].
Qed.

Lemma GetNode_None g k : GetNode g k = None ↔ NewNode k ∉ Nodes g.
Proof.
  rewrite <- GetNode_is_Some, <- eq_None_not_Some. done.
Qed.

Lemma Nodes_AddNode g n n' :
  n' ∈ Nodes (AddNode g n) ↔ n' ∈ Nodes g ∨ n' = n.
Proof.
  unfold AddNode. destruct (GetNode g (Name n)) as [x|] eqn:Hget; simpl.
  - assert (Hin : n ∈ Nodes g).
    { destruct n as [k]. apply GetNode_is_Some. by exists x. }
    split; [by left|]. by intros [?| ->].
  - rewrite elem_of_app, list_elem_of_singleton. done.
Qed.

Lemma Edges_AddNode g n : Edges (AddNode g n) = Edges g.
Proof. unfold AddNode. by destruct (GetNode g (Name n)). Qed.

Lemma Nodes_AddEdge g from to : Nodes (AddEdge g from to).1 = Nodes g.
Proof.
  unfold AddEdge.
  destruct (GetNode g (Name from)), (GetNode g (Name to)); simpl; try done.
  by case_bool_decide.
Qed.

Lemma Edges_AddEdge g from to e :
  from ∈ Nodes g → to ∈ Nodes g →
  e ∈ Edges (AddEdge g from to).1 ↔ e ∈ Edges g ∨ e = (from, to).
Proof.
  intros Hfrom Hto. unfold AddEdge.
  destruct from as [a], to as [b]. cbn [Name].
  apply GetNode_is_Some in Hfrom as [x ->]. apply GetNode_is_Some in Hto as [y ->].
  case_bool_decide as Hin; simpl.
  - split; [by left|]. by intros [?| ->].
  - rewrite elem_of_app, list_elem_of_singleton. done.
Qed.

Lemma NoDup_AddNode g k : NoDup (Nodes g) → NoDup (Nodes (AddNode g (NewNode k))).
Proof.
  intros Hnd. unfold AddNode. cbn [Name].
  destruct (GetNode g k) as [x|] eqn:Hget; [done|]. simpl.
  apply NoDup_app. split; [done|]. split; [|apply NoDup_singleton].
  intros x Hx ->%list_elem_of_singleton. by apply GetNode_None in Hget.
Qed.









End GraphFacts.

(** ** The loader of a module *)

Section ModuleLoad.
Import resource module.
Context {World : Type}.
Variable hcl : Hcl.
Variable Registry : gmap string (string -> ObjectItem -> result (Resource World)).
Implicit Types (m : Module World) (item : ObjectItem) (items root : list ObjectItem).

(** The loops over the blocks keep the fields of the module that they do
    not load; when they end without an error, every block was loaded. *)
Lemma range_hclImport_spec m items :
  ∃ imps err,
    range_hclImport hcl m items
      = (mkModule (Name m) (Resources m) (Imports m ++ imps) (UnknownKeys m), err)
    ∧ (err = None → Forall2 (decodes hcl) items imps).
Proof.
  revert m. induction items as [|item items IH]; intros m.
  { exists [], None. rewrite app_nil_r. by destruct m. }
  cbn [range_hclImport]. case_bool_decide as Hkeys.
  { eexists [], (Some _). rewrite app_nil_r. split; [by destruct m|done]. }
  assert (Hnil : Keys item = []) by by destruct (Keys item).
  destruct (hcl_DecodeObject hcl item) as [i|e] eqn:Hdecode.
  2:{ exists [], (Some e). rewrite app_nil_r. split; [by destruct m|done]. }
  destruct (IH (mkModule (Name m) (Resources m) (Imports m ++ [i]) (UnknownKeys m)))
    as (imps & err & -> & Herr).
  cbn [Name Resources Imports UnknownKeys] in *.
  exists (i :: imps), err. rewrite <- app_assoc. split; [done|].
  intros ->. constructor; auto. by split.
Qed.

Lemma range_hclResources_spec (kind : string) m items :
  ∃ rs err,
    range_hclResources Registry kind m items
      = (mkModule (Name m) (Resources m ++ rs) (Imports m) (UnknownKeys m), err)
    ∧ (err = None → Forall2 (provides Registry kind) items rs).
Proof.
  revert m. induction items as [|item items IH]; intros m.
  { exists [], None. rewrite app_nil_r. by destruct m. }
  cbn [range_hclResources].
  assert (Hstop : ∀ e : error,
    ∃ rs err,
      (m, Some e) = (mkModule (Name m) (Resources m ++ rs) (Imports m) (UnknownKeys m), err)
      ∧ (err = None → Forall2 (provides Registry kind) (item :: items) rs)).
  { intros e. exists [], (Some e). rewrite app_nil_r. split; [by destruct m|done]. }
  destruct (Keys item) as [|name [|]] eqn:Hkeys; [by apply Hstop| |by apply Hstop].
  destruct (Registry !! kind) as [Provider|] eqn:Hkind; [|by apply Hstop].
  destruct (Provider name item) as [r|e] eqn:Hprovide; [|by apply Hstop].
  destruct (IH (mkModule (Name m) (Resources m ++ [r]) (Imports m) (UnknownKeys m)))
    as (rs & err & -> & Herr).
  cbn [Name Resources Imports UnknownKeys] in *.
  exists (r :: rs), err. rewrite <- app_assoc. split; [done|].
  intros ->. constructor; auto. by exists name, Provider.
Qed.

Lemma range_Registry_spec (order : list string) root m :
  ∃ rss err,
    range_Registry hcl Registry order root m
      = (mkModule (Name m) (Resources m ++ concat rss) (Imports m) (UnknownKeys m), err)
    ∧ (err = None →
         Forall2 (fun kind rs => Forall2 (provides Registry kind)
                                   (ObjectList_Filter hcl kind root) rs)
                 order rss).
Proof.
  revert m. induction order as [|kind order IH]; intros m.
  { exists [], None. simpl. rewrite app_nil_r. by destruct m. }
  cbn [range_Registry]. unfold hclLoadResources.
  destruct (range_hclResources_spec kind m (ObjectList_Filter hcl kind root))
    as (rs & err & -> & Herr).
  destruct err as [e|].
  { exists [rs], (Some e). simpl. by rewrite app_nil_r. }
  destruct (IH (mkModule (Name m) (Resources m ++ rs) (Imports m) (UnknownKeys m)))
    as (rss & err & -> & Herr').
  cbn [Name Resources Imports UnknownKeys].
  exists (rs :: rss), err. simpl. rewrite <- app_assoc. split; [done|].
  intros ->. constructor; auto.
Qed.

Lemma range_Items_spec (valid : gset string) items m (m' : Module World) :
  range_Items valid items m = Returned m' →
  m' = mkModule (Name m) (Resources m) (Imports m)
         (UnknownKeys m ++ filter (fun key => key ∉ valid) (first_keys items)).
Proof.
  revert m. induction items as [|item items IH]; intros m.
  { intros [= <-]. simpl. rewrite app_nil_r. by destruct m. }
  cbn [range_Items first_keys omap list_omap].
  destruct (Keys item) as [|key keys]; [done|]. cbn [head].
  fold (first_keys items). rewrite filter_cons.
  intros ->%IH. case_bool_decide as Hkey.
  - by rewrite decide_False by (by intros ?).
  - rewrite decide_True by done.
    cbn [Name Resources Imports UnknownKeys]. by rewrite <- app_assoc.
Qed.

(** X1: when [Load] returns a module and no error for a document that
    parsed to the items [root], the module bears the given name; its imports
    are the import blocks of the document, decoded, in the order of the
    document, and each of these blocks has no key; its resources are, for
    each registered type in the order in which the registry was visited, the
    resources that the provider of the type made of the blocks of that type,
    each of which has exactly one key; and its unknown keys are, in the order
    of the document, the first keys of the items that are neither a
    registered type nor [import]. *)
Theorem Load_result (order : list string) (name input : string)
    root m :
  hcl_Parse hcl input = Ok (Some root) →
  Load hcl Registry order name (Ok input) = Returned (m, None) →
  Name m = name
  ∧ Forall2 (decodes hcl) (ObjectList_Filter hcl "import" root) (Imports m)
  ∧ (∃ rss, Resources m = concat rss
       ∧ Forall2 (fun kind rs => Forall2 (provides Registry kind)
                                   (ObjectList_Filter hcl kind root) rs)
                 order rss)
  ∧ UnknownKeys m
    = filter (fun key => key ∉ validKeys Registry) (first_keys root).
Proof.
  intros Hparse. unfold Load, hclLoadImport, New. rewrite Hparse.
  destruct (range_hclImport_spec (mkModule name [] [] [])
              (ObjectList_Filter hcl "import" root)) as (imps & err & -> & Himports).
  destruct err as [e|]; [done|]. cbn [Name Resources Imports UnknownKeys app].
  specialize (Himports eq_refl).
  destruct (range_Registry_spec order root (mkModule name [] imps []))
    as (rss & err & -> & Hresources).
  destruct err as [e|]; [done|]. cbn [Name Resources Imports UnknownKeys app].
  destruct (range_Items _ _ _) as [m'| |] eqn:Hitems; [|done|done].
  apply range_Items_spec in Hitems as ->. intros [= <-].
  cbn [Name Resources Imports UnknownKeys app].
  split; [done|]. split; [done|]. split; [|done]. exists rss. auto.
Qed.

Lemma range_hclImport_invalid m (pre post : list ObjectItem) (item : ObjectItem)
    (imps : list Import) :
  Forall2 (decodes hcl) pre imps →
  Keys item ≠ [] →
  range_hclImport hcl m (pre ++ item :: post)
    = (mkModule (Name m) (Resources m) (Imports m ++ imps) (UnknownKeys m),
       Some (ErrOther ("Invalid module import found in " +:+ Name m
                         +:+ ":" +:+ Position item))).
Proof.
  intros Hpre Hkeys. revert m.
  induction Hpre as [|item' i pre imps [Hnil Hdecode] _ IH]; intros m.
  - rewrite app_nil_r. cbn [app range_hclImport].
    rewrite bool_decide_eq_true_2; [by destruct m|]. by destruct (Keys item).
  - cbn [app range_hclImport]. rewrite Hnil, Hdecode. cbn [length].
    rewrite bool_decide_eq_false_2 by (by intros ?).
    rewrite IH. cbn [Name Resources Imports UnknownKeys]. by rewrite <- app_assoc.
Qed.

(** X2: when the import blocks before it have no key and decode, an import
    block that carries a key makes [Load] fail with the error "Invalid module
    import found in", the name of the module and the position of the block;
    the module that is returned beside the error holds the imports decoded so
    far, no resource and no unknown key. *)
Theorem Load_invalid_import (order : list string) (name input : string)
    root (pre post : list ObjectItem) (item : ObjectItem) (imps : list Import) :
  hcl_Parse hcl input = Ok (Some root) →
  ObjectList_Filter hcl "import" root = pre ++ item :: post →
  Forall2 (decodes hcl) pre imps →
  Keys item ≠ [] →
  Load hcl Registry order name (Ok input)
    = Returned (mkModule name [] imps [],
                Some (ErrOther ("Invalid module import found in " +:+ name
                                  +:+ ":" +:+ Position item))).
Proof.
  intros Hparse Hfilter Hpre Hkeys. unfold Load, hclLoadImport, New.
  by rewrite Hparse, Hfilter, (range_hclImport_invalid _ pre post item imps).
Qed.

(** X3: when the blocks of a resource type before it have one key each and
    their provider accepts them, a block of that type whose number of keys is
    not one makes [hclLoadResources] fail with the error "Invalid resource
    declaration found in", the name of the module and the position of the
    block; the resources of the blocks before it have been appended to the
    module. *)
Theorem hclLoadResources_invalid (kind : string) m root
    (pre post : list ObjectItem) (item : ObjectItem) (rs : list (Resource World)) :
  ObjectList_Filter hcl kind root = pre ++ item :: post →
  Forall2 (provides Registry kind) pre rs →
  length (Keys item) ≠ 1 →
  hclLoadResources hcl Registry kind m root
    = (mkModule (Name m) (Resources m ++ rs) (Imports m) (UnknownKeys m),
       Some (ErrOther ("Invalid resource declaration found in " +:+ Name m
                         +:+ ":" +:+ Position item))).
Proof.
  intros Hfilter Hpre Hkeys. unfold hclLoadResources. rewrite Hfilter. clear Hfilter.
  revert m. induction Hpre as [|item' r pre rs (n & P & Hn & HP & Hr) _ IH]; intros m.
  - rewrite app_nil_r. cbn [app range_hclResources].
    destruct (Keys item) as [|? [|]]; [by destruct m|done|by destruct m].
  - cbn [app range_hclResources]. rewrite Hn, HP, Hr, IH.
    cbn [Name Resources Imports UnknownKeys]. by rewrite <- app_assoc.
Qed.

End ModuleLoad.

Lemma Load_result_witness :
  module.Name (module.mkModule "site" [example_package "nginx"]
                 [module.mkImport "base" "base.hcl"] ["motd"]) = "site"
  ∧ Forall2 (decodes example_hcl)
            (module.ObjectList_Filter example_hcl "import" (take 3 example_items))
            [module.mkImport "base" "base.hcl"]
  ∧ (∃ rss, [example_package "nginx"] = concat rss
       ∧ Forall2 (fun kind rs =>
                    Forall2 (provides example_Registry kind)
                      (module.ObjectList_Filter example_hcl kind (take 3 example_items))
                      rs)
                 ["package"] rss)
  ∧ ["motd"]
    = filter (fun key => key ∉ module.validKeys example_Registry)
             (first_keys (take 3 example_items)).
Proof.
  apply (Load_result example_hcl example_Registry ["package"] "site"
           "site.hcl" (take 3 example_items)
           (module.mkModule "site" [example_package "nginx"]
              [module.mkImport "base" "base.hcl"] ["motd"]));
    reflexivity.
Defined.

Lemma Load_invalid_import_witness :
  module.Load example_hcl example_Registry ["package"] "site" (Ok "bad")
  = Returned (module.mkModule "site" [] [module.mkImport "base" "base.hcl"] [],
              Some (ErrOther ("Invalid module import found in " +:+ "site" +:+ ":"
                                +:+ "5:16"))).
Proof.
  apply (Load_invalid_import example_hcl example_Registry ["package"] "site" "bad"
           labelled_import
           [module.mkObjectItem [] "1:8" "base"] []
           (module.mkObjectItem ["users"] "5:16" "users")
           [module.mkImport "base" "base.hcl"]);
    [reflexivity|reflexivity|by repeat constructor|done].
Defined.

Lemma hclLoadResources_invalid_witness :
  module.hclLoadResources example_hcl example_Registry "package"
    (module.New "site") example_items
  = (module.mkModule "site" ([] ++ [example_package "nginx"]) [] [],
     Some (ErrOther ("Invalid resource declaration found in " +:+ "site" +:+ ":"
                       +:+ "13:9"))).
Proof.
  apply (hclLoadResources_invalid example_hcl example_Registry "package"
           (module.New "site") example_items
           [module.mkObjectItem ["nginx"] "5:17" "state = present"] []
           (module.mkObjectItem [] "13:9" "state = present")
           [example_package "nginx"]);
    [reflexivity| |done].
  constructor; [|constructor].
  by exists "nginx", (fun name _ => Ok (example_package name)).
Defined.

(** ** The import graph *)

Section ImportGraphFacts.
Import graph resource module.
Context {World : Type}.
Variable modules : gmap string (Module World).
Implicit Types (g : Graph) (m : Module World) (k : string).

Lemma module_nodes_lookup k :
  module_nodes modules !! k = (fun _ => NewNode k) <$> modules !! k.
Proof. unfold module_nodes. rewrite map_lookup_imap. by destruct (modules !! k). Qed.

Lemma unvisited_mono g g' :
  (∀ n : Node, n ∈ Nodes g → n ∈ Nodes g') →
  unvisited modules g' ⊆ unvisited modules g.
Proof.
  intros Hsub k. unfold unvisited. rewrite !elem_of_filter, !GetNode_None.
  intros [Hk ?]. split; [|done]. intros ?%Hsub. done.
Qed.

Lemma unvisited_AddNode g k :
  is_Some (modules !! k) → GetNode g k = None →
  size (unvisited modules (AddNode g (NewNode k))) < size (unvisited modules g).
Proof.
  intros Hk Hget. apply subset_size. apply strict_spec_alt. split.
  - apply unvisited_mono. intros n Hn. apply Nodes_AddNode. by left.
  - intros Heq.
    assert (Hin : k ∈ unvisited modules g).
    { unfold unvisited. apply elem_of_filter. split; [done|]. by apply elem_of_dom. }
    rewrite <- Heq in Hin. unfold unvisited in Hin.
    apply elem_of_filter in Hin as [Hnone _]. apply GetNode_None in Hnone.
    apply Hnone, Nodes_AddNode. by right.
Qed.

(** The closure with enough fuel: it returns, the graph only grows, and the
    error is the one of the first missing import of the module itself; what
    the recursive calls returned is not in it.  It panics only on a module
    that does not stand under its own name. *)
Lemma buildImportGraphFunc_spec (fuel : nat) g m :
  (∃ k, modules !! k = Some m) →
  size (unvisited modules g) < fuel →
  (∃ g', buildImportGraphFunc modules (module_nodes modules) fuel g m
         = Returned (g', match GetNode g (module.Name m) with
                         | Some _ => None
                         | None => first_missing modules (module.Name m) (Imports m)
                         end)
         ∧ ∀ n : Node, n ∈ Nodes g → n ∈ Nodes g')
  ∨ (buildImportGraphFunc modules (module_nodes modules) fuel g m = Panicked
     ∧ ¬ keyed modules).
Proof.
  revert g m. induction fuel as [|fuel IH]; intros g m Hm Hsize; [lia|].
  cbn [buildImportGraphFunc].
  destruct (GetNode g (module.Name m)) as [x|] eqn:Hget.
  { left. by exists g. }
  rewrite module_nodes_lookup.
  destruct (modules !! module.Name m) as [m'|] eqn:Hself; cbn [fmap option_fmap option_map].
  2:{ right. split; [done|]. intros Hkeyed. destruct Hm as [k Hk].
      rewrite <- (Hkeyed k m Hk) in Hk. congruence. }
  pose proof (unvisited_AddNode g (module.Name m) (mk_is_Some _ _ Hself) Hget) as Hless.
  assert (Hstart : ∀ n : Node, n ∈ Nodes g → n ∈ Nodes (AddNode g (NewNode (module.Name m)))).
  { intros n Hn. apply Nodes_AddNode. by left. }
  revert Hstart.
  assert (Hfuel : size (unvisited modules (AddNode g (NewNode (module.Name m)))) < fuel) by lia.
  revert Hfuel. generalize (AddNode g (NewNode (module.Name m))) as g1.
  clear Hless Hsize.
  induction (Imports m) as [|mi rest IHrest]; intros g1 Hfuel Hstart.
  { left. by exists g1. }
  cbn [range_Imports first_missing].
  destruct (modules !! ImportName mi) as [imported|] eqn:Himp.
  2:{ left. by exists g1. }
  destruct (IH g1 imported (ex_intro _ _ Himp) Hfuel)
    as [(g2 & -> & Hgrow)|[-> Hnot]]; [|by right].
  rewrite !module_nodes_lookup, Hself, Himp. cbn [fmap option_fmap option_map].
  apply IHrest.
  - eapply Nat.le_lt_trans; [|exact Hfuel].
    apply subseteq_size, unvisited_mono. intros n Hn.
    rewrite Nodes_AddEdge. by apply Hgrow.
  - intros n Hn. rewrite Nodes_AddEdge. by apply Hgrow, Hstart.
Qed.

Section ImportGraph.
Variable DiscoverAndLoad : string -> result (gmap string (Module World)).

(** [ImportGraph] gives the closure enough fuel. *)
Lemma ImportGraph_fuel (main path : string) :
  DiscoverAndLoad path = Ok modules →
  ImportGraph DiscoverAndLoad main path ≠ OutOfFuel.
Proof.
  intros Hload. unfold ImportGraph. rewrite Hload.
  destruct (modules !! main) as [m|] eqn:Hmain; [|done].
  assert (Hfuel : size (unvisited modules NewGraph) < S (size modules)).
  { apply Nat.lt_succ_r. rewrite <- size_dom.
    apply subseteq_size. intros k. unfold unvisited. rewrite elem_of_filter. tauto. }
  by destruct (buildImportGraphFunc_spec (S (size modules)) NewGraph m
                 (ex_intro _ main Hmain) Hfuel)
    as [(g' & -> & _)|[-> _]].
Qed.

(** On a module map in which every module stands under its own name,
    [ImportGraph] returns, and the only missing import that it reports is
    one of the main module itself. *)
Lemma ImportGraph_error (main path : string) (m : Module World) :
  keyed modules →
  DiscoverAndLoad path = Ok modules →
  modules !! main = Some m →
  ∃ g, ImportGraph DiscoverAndLoad main path
       = Returned (g, first_missing modules main (Imports m)).
Proof.
  intros Hkeyed Hload Hmain. unfold ImportGraph. rewrite Hload, Hmain.
  assert (Hfuel : size (unvisited modules NewGraph) < S (size modules)).
  { apply Nat.lt_succ_r. rewrite <- size_dom.
    apply subseteq_size. intros k. unfold unvisited. rewrite elem_of_filter. tauto. }
  destruct (buildImportGraphFunc_spec (S (size modules)) NewGraph m
              (ex_intro _ main Hmain) Hfuel)
    as [(g' & Hrun & _)|[_ Hnot]]; [|done].
  exists g'. rewrite Hrun. by rewrite (Hkeyed main m Hmain).
Qed.

End ImportGraph.
End ImportGraphFacts.

(** C2: the main module [site] imports [base], and [base] imports [users],
    which is not in the module path.  [ImportGraph] on [site] returns the
    graph of the two modules and no error, and [Load] returns a catalog and no
    error: what the closure returned for [base] was dropped at the recursive
    call.  The same missing import is reported when [base] is the main
    module. *)
Theorem ImportGraph_drops_error_of_import :
  module.ImportGraph (fun _ => Ok dangling) "site" "/etc/gru/modules"
  = Returned (graph.mkGraph [graph.NewNode "site"; graph.NewNode "base"]
                            [(graph.NewNode "site", graph.NewNode "base")],
              None)
  ∧ example_Load dangling "site"
    = Returned (catalog.mkCatalog [Some base; Some site] [] (main_config "site"),
                None)
  ∧ module.ImportGraph (fun _ => Ok dangling) "base" "/etc/gru/modules"
    = Returned (graph.mkGraph [graph.NewNode "base"] [],
                Some (ErrImportNotInPath "base" "users")).
Proof. repeat split. Qed.

(** ** The walk of the import graph *)

Section ImportGraphReach.
Import graph resource module.
Context {World : Type}.
Variable modules : gmap string (Module World).
Hypothesis modules_keyed : keyed modules.
Implicit Types (g h : Graph) (m : Module World) (k : string).


Lemma extends_refl g (roots : list string) :
  (∀ i, i ∈ roots → NewNode i ∈ Nodes g) → extends modules g g roots.
Proof.
  intros Hroots. split; [done|]. split; [by left|]. split; [done|]. split; [|done].
  by intros a b Hin Hnot.
Qed.

Lemma connects_refl g k : connects modules g g k [].
Proof.
  intros a b. split; [by left|]. intros [?|[(? & ? & _)|[_ ?%elem_of_nil]]]; done.
Qed.

(** The loop over the imports of the module [k], which the graph holds. *)
Lemma range_Imports_extends
    (self : Graph → Module World → outcome (Graph * option error)) (bound : nat)
    m k (imports : list Import) h :
  (∀ g m' k', modules !! k' = Some m' → size (unvisited modules g) < bound →
     ∃ g' err, self g m' = Returned (g', err)
       ∧ extends modules g g' [k'] ∧ connects modules g g' k' []) →
  modules !! k = Some m → NewNode k ∈ Nodes h →
  size (unvisited modules h) < bound →
  ∃ g', range_Imports modules (module_nodes modules) self m imports h
          = Returned (g', first_missing modules k imports)
    ∧ extends modules h g' (followed modules imports)
    ∧ connects modules h g' k (followed modules imports).
Proof using modules_keyed.
  intros Hself Hk. pose proof (modules_keyed k m Hk) as Hname.
  revert h. induction imports as [|mi rest IH]; intros h Hin Hsize.
  { exists h. split; [done|]. split; [|apply connects_refl].
    apply extends_refl. by intros i ?%elem_of_nil. }
  cbn [range_Imports first_missing followed]. rewrite Hname.
  destruct (modules !! ImportName mi) as [imported|] eqn:Himp.
  2:{ exists h. split; [done|]. split; [|apply connects_refl].
      apply extends_refl. by intros i ?%elem_of_nil. }
  destruct (Hself h imported (ImportName mi) Himp Hsize)
    as (g2 & err & -> & (Hsub2 & Hsound2 & Hroot2 & Hclosed2 & Hnd2) & Hedges2).
  rewrite !module_nodes_lookup, Hk, Himp. cbn [fmap option_fmap option_map].
  set (h' := (AddEdge g2 (NewNode k) (NewNode (ImportName mi))).1).
  assert (Hnodes' : Nodes h' = Nodes g2) by apply Nodes_AddEdge.
  assert (Hk2 : NewNode k ∈ Nodes g2) by auto.
  assert (Hmi2 : NewNode (ImportName mi) ∈ Nodes g2) by (apply Hroot2; left).
  destruct (IH h') as (g' & Hrun & (Hsub & Hsound & Hroot & Hclosed & Hnd) & Hedges).
  { by rewrite Hnodes'. }
  { eapply Nat.le_lt_trans; [|exact Hsize].
    apply subseteq_size, unvisited_mono. intros n Hn. rewrite Hnodes'. auto. }
  rewrite Hnodes' in Hsub, Hsound, Hclosed, Hnd.
  exists g'. split; [done|]. split; [split; [|split; [|split; [|split]]]|].
  - auto.
  - intros n [Hn|(i & Hi & Hreach)]%Hsound.
    + apply Hsound2 in Hn as [?|(i & ->%list_elem_of_singleton & Hreach)]; [by left|].
      right. exists (ImportName mi). split; [left|done].
    + right. exists i. split; [by right|done].
  - intros i [->|Hi]%elem_of_cons; auto.
  - intros a b Ha Hnot Himports.
    destruct (decide (NewNode a ∈ Nodes g2)) as [Hin2|Hnot2]; [|by eauto].
    apply Hsub. by eapply Hclosed2.
  - auto.
  - intros a b. rewrite (Hedges a b), Hnodes'. unfold h'.
    rewrite (Edges_AddEdge g2 _ _ _ Hk2 Hmi2), (Hedges2 a b). split.
    + intros [[[?|[(Ha & Hnot & Himports)|[_ []%elem_of_nil]]]|[= -> ->]]
             |[(Ha & Hnot & Himports)|[-> Hb]]].
      * by left.
      * right; left. auto.
      * right; right. split; [done|left].
      * right; left. split; [done|]. split; [|done]. intros ?. apply Hnot. auto.
      * right; right. split; [done|by right].
    + intros [?|[(Ha & Hnot & Himports)|[-> [->|Hb]%elem_of_cons]]].
      * by left; left; left.
      * destruct (decide (NewNode a ∈ Nodes g2)) as [Hin2|Hnot2].
        -- left; left; right; left. done.
        -- right; left. done.
      * by left; right.
      * right; right. done.
Qed.

Lemma buildImportGraphFunc_extends (fuel : nat) g m k :
  modules !! k = Some m →
  size (unvisited modules g) < fuel →
  ∃ g', buildImportGraphFunc modules (module_nodes modules) fuel g m
          = Returned (g', match GetNode g k with
                          | Some _ => None
                          | None => first_missing modules k (Imports m)
                          end)
    ∧ extends modules g g' [k] ∧ connects modules g g' k [].
Proof using modules_keyed.
  revert g m k. induction fuel as [|fuel IH]; intros g m k Hk Hsize; [lia|].
  pose proof (modules_keyed k m Hk) as Hname.
  cbn [buildImportGraphFunc]. rewrite Hname.
  destruct (GetNode g k) as [x|] eqn:Hget.
  { exists g. split; [done|]. split; [|apply connects_refl].
    apply extends_refl. intros i ->%list_elem_of_singleton.
    apply GetNode_is_Some. by rewrite Hget. }
  rewrite module_nodes_lookup, Hk. cbn [fmap option_fmap option_map].
  apply GetNode_None in Hget.
  assert (Hin1 : NewNode k ∈ Nodes (AddNode g (NewNode k))).
  { apply Nodes_AddNode. by right. }
  destruct (range_Imports_extends
              (buildImportGraphFunc modules (module_nodes modules) fuel) fuel
              m k (Imports m) (AddNode g (NewNode k)))
    as (g' & Hrun & (Hsub & Hsound & Hroot & Hclosed & Hnd) & Hedges); try done.
  { intros g0 m' k' Hk' Hsize'. destruct (IH g0 m' k' Hk' Hsize') as (g'' & ? & ?).
    by exists g'', (match GetNode g0 k' with
                   | Some _ => None
                   | None => first_missing modules k' (Imports m')
                   end). }
  { pose proof (unvisited_AddNode modules g k (mk_is_Some _ _ Hk)
                  (proj2 (GetNode_None g k) Hget)). lia. }
  assert (Himports : ∀ b, imports_of modules k b ↔ b ∈ followed modules (Imports m)).
  { intros b. split; [|by exists m]. intros (m' & Hm' & Hb). congruence. }
  exists g'. split; [done|]. split; [split; [|split; [|split; [|split]]]|].
  - intros n Hn. apply Hsub, Nodes_AddNode. by left.
  - intros n [[?| ->]%Nodes_AddNode|(i & Hi & Hreach)]%Hsound.
    + by left.
    + right. exists k. split; [left|]. apply rtc_refl.
    + right. exists k. split; [left|].
      eapply rtc_l; [|exact Hreach]. by apply Himports.
  - intros i ->%list_elem_of_singleton. auto.
  - intros a b Ha Hnot Hab. destruct (decide (a = k)) as [->|Hne].
    + by apply Hroot, Himports.
    + eapply Hclosed; [exact Ha| |exact Hab].
      intros [?|[= ?]]%Nodes_AddNode; done.
  - intros Hnodup. by apply Hnd, NoDup_AddNode.
  - intros a b. rewrite (Hedges a b), Edges_AddNode. split.
    + intros [?|[(Ha & Hnot & Hab)|[-> Hb]]].
      * by left.
      * right; left. split; [done|]. split; [|done].
        intros ?. apply Hnot, Nodes_AddNode. by left.
      * right; left. split; [auto|]. split; [done|]. by apply Himports.
    + intros [?|[(Ha & Hnot & Hab)|[_ ?%elem_of_nil]]]; [by left| |done].
      destruct (decide (a = k)) as [->|Hne].
      * right; right. split; [done|]. by apply Himports.
      * right; left. split; [done|]. split; [|done].
        intros [?|[= ?]]%Nodes_AddNode; done.
Qed.

Section Walk.
Variable DiscoverAndLoad : string -> result (gmap string (Module World)).

(** On a module map in which every module stands under its own name,
    [ImportGraph] returns the walk from the main module. *)
Lemma ImportGraph_walk (main path : string) m :
  DiscoverAndLoad path = Ok modules →
  modules !! main = Some m →
  ∃ g, ImportGraph DiscoverAndLoad main path
         = Returned (g, first_missing modules main (Imports m))
    ∧ extends modules NewGraph g [main]
    ∧ connects modules NewGraph g main [].
Proof using modules_keyed.
  intros Hload Hmain. unfold ImportGraph. rewrite Hload, Hmain.
  assert (Hfuel : size (unvisited modules NewGraph) < S (size modules)).
  { apply Nat.lt_succ_r. rewrite <- size_dom.
    apply subseteq_size. intros k. unfold unvisited. rewrite elem_of_filter. tauto. }
  destruct (buildImportGraphFunc_extends (S (size modules)) NewGraph m main Hmain Hfuel)
    as (g & Hrun & Hwalk). by exists g.
Qed.
End Walk.

(** The nodes and the edges of a walk that started on the empty graph. *)
Lemma walk_Nodes g (main : string) (n : Node) :
  extends modules NewGraph g [main] →
  n ∈ Nodes g ↔ reachable modules main (graph.Name n).
Proof.
  intros (_ & Hsound & Hroot & Hclosed & _). split.
  - intros [[]%elem_of_nil|(i & ->%list_elem_of_singleton & Hreach)]%Hsound. done.
  - destruct n as [k]. cbn [graph.Name]. unfold reachable. revert k.
    apply (rtc_ind_r (fun k => NewNode k ∈ Nodes g)).
    + apply Hroot. left.
    + intros a b _ Hab IH. eapply Hclosed; [exact IH| |exact Hab].
      by intros ?%elem_of_nil.
Qed.

Lemma walk_Edges g (main : string) (a b : Node) :
  extends modules NewGraph g [main] → connects modules NewGraph g main [] →
  (a, b) ∈ Edges g
  ↔ reachable modules main (graph.Name a)
    ∧ imports_of modules (graph.Name a) (graph.Name b).
Proof.
  intros Hwalk Hedges. destruct a as [a], b as [b]. cbn [graph.Name].
  rewrite (Hedges a b), <- (walk_Nodes g main (NewNode a) Hwalk). split.
  - intros [[]%elem_of_nil|[(Ha & _ & Hab)|[_ []%elem_of_nil]]]. done.
  - intros [Ha Hab]. right; left. split; [done|]. split; [|done].
    by intros ?%elem_of_nil.
Qed.


End ImportGraphReach.

(** X4: on a module map in which every module stands under its own name
    and which holds the main module, [ImportGraph] returns, also when modules
    import each other.  The error that it returns is the one for the first
    import of the main module that is not in the module map, if there is one.
    The graph that it returns holds every module once; its nodes are exactly
    the modules that can be reached from the main module through the imports
    that the closure follows, which for each module are its imports before
    the first one that is not in the module map; and its edges are exactly
    the edges from a module of the graph to each such import of it. *)
Theorem ImportGraph_reachable {World : Type}
    (DiscoverAndLoad : string -> result (gmap string (module.Module World)))
    (modules : gmap string (module.Module World)) (main path : string)
    (m : module.Module World) :
  keyed modules →
  DiscoverAndLoad path = Ok modules →
  modules !! main = Some m →
  ∃ g, module.ImportGraph DiscoverAndLoad main path
         = Returned (g, first_missing modules main (module.Imports m))
    ∧ NoDup (graph.Nodes g)
    ∧ (∀ n : graph.Node, n ∈ graph.Nodes g ↔ reachable modules main (graph.Name n))
    ∧ (∀ a b : graph.Node, (a, b) ∈ graph.Edges g
         ↔ reachable modules main (graph.Name a)
           ∧ imports_of modules (graph.Name a) (graph.Name b)).
Proof.
  intros Hkeyed Hload Hmain.
  destruct (ImportGraph_walk modules Hkeyed DiscoverAndLoad main path m Hload Hmain)
    as (g & Hrun & Hwalk & Hedges).
  exists g. split; [done|]. split; [|split].
  - destruct Hwalk as (_ & _ & _ & _ & Hnd). apply Hnd. constructor.
  - intros n. by apply walk_Nodes.
  - intros a b. by apply walk_Edges.
Qed.

Lemma ImportGraph_reachable_witness :
  ∃ g, module.ImportGraph (fun _ => Ok dangling) "site" "/etc/gru/modules"
         = Returned (g, first_missing dangling "site" (module.Imports site))
    ∧ NoDup (graph.Nodes g)
    ∧ (∀ n : graph.Node, n ∈ graph.Nodes g ↔ reachable dangling "site" (graph.Name n))
    ∧ (∀ a b : graph.Node, (a, b) ∈ graph.Edges g
         ↔ reachable dangling "site" (graph.Name a)
           ∧ imports_of dangling (graph.Name a) (graph.Name b)).
Proof.
  apply (ImportGraph_reachable (fun _ => Ok dangling) dangling "site"
           "/etc/gru/modules" site); [|reflexivity|reflexivity].
  intros k m Hk. unfold dangling in Hk.
  apply lookup_insert_Some in Hk as [[<- <-]|[_ Hk]]; [reflexivity|].
  apply lookup_insert_Some in Hk as [[<- <-]|[_ Hk]]; [reflexivity|].
  by rewrite lookup_empty in Hk.
Defined.

Section AsDotFacts.
Import graph resource module.
Context {World : Type}.
Variable DiscoverAndLoad : string -> result (gmap string (Module World)).
Variable Sort : Graph -> list Node * option error.
Variable AsDot : string -> Graph -> string.


End AsDotFacts.



(** ** The resource dependency graph *)

Section ResourceGraphFacts.
Import graph resource module.
Context {World : Type}.
Implicit Types (g : Graph) (r : Resource World) (name dep k : string).

Lemma resource_nodes_lookup (names : list string) k :
  resource_nodes names !! k
  = if decide (k ∈ names) then Some (NewNode k) else None.
Proof.
  unfold resource_nodes. induction names as [|a names IH].
  - rewrite decide_False by apply not_elem_of_nil. apply lookup_empty.
  - rewrite fmap_cons, list_to_map_cons, lookup_insert.
    destruct (decide (a = k)) as [->|Hne].
    + by rewrite decide_True by left.
    + rewrite IH. apply decide_ext. rewrite elem_of_cons.
      split; [by right|]. intros [Heq|?]; [by symmetry in Heq|done].
Qed.

Lemma range_nodes_Nodes (names : list string) g (n : Node) :
  n ∈ Nodes (range_nodes names g) ↔ n ∈ Nodes g ∨ graph.Name n ∈ names.
Proof.
  unfold range_nodes. revert g. induction names as [|a names IH]; intros g; simpl.
  - split; [by left|]. by intros [?|?%elem_of_nil].
  - rewrite IH, Nodes_AddNode, elem_of_cons. destruct n as [k]. simpl.
    split; [intros [[?|[= ->]]|?]|intros [?|[->|?]]]; eauto.
Qed.

Lemma range_nodes_Edges (names : list string) g :
  Edges (range_nodes names g) = Edges g.
Proof.
  unfold range_nodes. revert g. induction names as [|a names IH]; intros g; simpl.
  - done.
  - by rewrite IH, Edges_AddNode.
Qed.

Section Connect.
Variable resources : gmap string (Resource World).
Variable nodes : gmap string Node.
Hypothesis nodes_known : ∀ k, is_Some (resources !! k) → nodes !! k = Some (NewNode k).

Lemma range_after_spec name (after : list string) g :
  is_Some (resources !! name) → covers resources g →
  ∃ g', Nodes g' = Nodes g
    ∧ ((range_after resources nodes name after g = Returned (g', None)
        ∧ Forall (fun dep => is_Some (resources !! dep)) after
        ∧ ∀ e, e ∈ Edges g' ↔
               e ∈ Edges g ∨ ∃ dep, dep ∈ after ∧ e = (NewNode name, NewNode dep))
       ∨ (∃ dep, range_after resources nodes name after g
                  = Returned (g', Some (ErrMissingDependency name dep))
                 ∧ dep ∈ after ∧ resources !! dep = None)).
Proof using nodes_known.
  intros Hname. revert g. induction after as [|dep after IH]; intros g Hg; simpl.
  - exists g. split; [done|]. left. split; [done|]. split; [done|].
    intros e. split; [by left|]. by intros [?|(? & ?%elem_of_nil & _)].
  - destruct (resources !! dep) as [rdep|] eqn:Hdep.
    2:{ exists g. split; [done|]. right. exists dep. split; [done|]. split; [left|done]. }
    rewrite (nodes_known name Hname), (nodes_known dep) by by rewrite Hdep.
    destruct (IH (AddEdge g (NewNode name) (NewNode dep)).1)
      as (g' & Hn & [(Hrun & Hall & Hedges)|(dep' & Hrun & Hin & Hnone)]).
    { intros k Hk. rewrite Nodes_AddEdge. by apply Hg. }
    + exists g'. rewrite Hn, Nodes_AddEdge. split; [done|]. left.
      split; [done|]. split; [constructor; by rewrite ?Hdep|].
      intros e. rewrite Hedges, Edges_AddEdge by (apply Hg; by rewrite ?Hdep).
      split.
      * intros [[?| ->]|(d & ? & ->)]; [by left| |].
        -- right. exists dep. split; [left|done].
        -- right. exists d. split; [by right|done].
      * intros [?|(d & [->|?]%elem_of_cons & ->)]; [by left; left|by left; right|].
        right. by exists d.
    + exists g'. rewrite Hn, Nodes_AddEdge. split; [done|]. right.
      exists dep'. split; [done|]. split; [by right|done].
Qed.

Lemma range_before_spec name (before : list string) g :
  is_Some (resources !! name) → covers resources g →
  ∃ g', Nodes g' = Nodes g
    ∧ ((range_before resources nodes name before g = Returned (g', None)
        ∧ Forall (fun dep => is_Some (resources !! dep)) before
        ∧ ∀ e, e ∈ Edges g' ↔
               e ∈ Edges g ∨ ∃ dep, dep ∈ before ∧ e = (NewNode dep, NewNode name))
       ∨ (∃ dep, range_before resources nodes name before g
                  = Returned (g', Some (ErrMissingDependency name dep))
                 ∧ dep ∈ before ∧ resources !! dep = None)).
Proof using nodes_known.
  intros Hname. revert g. induction before as [|dep before IH]; intros g Hg; simpl.
  - exists g. split; [done|]. left. split; [done|]. split; [done|].
    intros e. split; [by left|]. by intros [?|(? & ?%elem_of_nil & _)].
  - destruct (resources !! dep) as [rdep|] eqn:Hdep.
    2:{ exists g. split; [done|]. right. exists dep. split; [done|]. split; [left|done]. }
    rewrite (nodes_known name Hname), (nodes_known dep) by by rewrite Hdep.
    destruct (IH (AddEdge g (NewNode dep) (NewNode name)).1)
      as (g' & Hn & [(Hrun & Hall & Hedges)|(dep' & Hrun & Hin & Hnone)]).
    { intros k Hk. rewrite Nodes_AddEdge. by apply Hg. }
    + exists g'. rewrite Hn, Nodes_AddEdge. split; [done|]. left.
      split; [done|]. split; [constructor; by rewrite ?Hdep|].
      intros e. rewrite Hedges, Edges_AddEdge by (apply Hg; by rewrite ?Hdep).
      split.
      * intros [[?| ->]|(d & ? & ->)]; [by left| |].
        -- right. exists dep. split; [left|done].
        -- right. exists d. split; [by right|done].
      * intros [?|(d & [->|?]%elem_of_cons & ->)]; [by left; left|by left; right|].
        right. by exists d.
    + exists g'. rewrite Hn, Nodes_AddEdge. split; [done|]. right.
      exists dep'. split; [done|]. split; [by right|done].
Qed.

Lemma range_connect_spec (entries : list (string * Resource World)) g :
  (∀ name r, (name, r) ∈ entries → resources !! name = Some r) → covers resources g →
  ∃ g', Nodes g' = Nodes g
    ∧ ((range_connect resources nodes entries g = Returned (g', None)
        ∧ (∀ name r dep, (name, r) ∈ entries →
             dep ∈ WantAfter r ++ WantBefore r → is_Some (resources !! dep))
        ∧ ∀ e, e ∈ Edges g' ↔
               e ∈ Edges g
               ∨ ∃ name r dep, (name, r) ∈ entries
                   ∧ ((dep ∈ WantAfter r ∧ e = (NewNode name, NewNode dep))
                      ∨ (dep ∈ WantBefore r ∧ e = (NewNode dep, NewNode name))))
       ∨ (∃ name r dep,
            range_connect resources nodes entries g
              = Returned (g', Some (ErrMissingDependency name dep))
            ∧ (name, r) ∈ entries
            ∧ dep ∈ WantAfter r ++ WantBefore r
            ∧ resources !! dep = None)).
Proof using nodes_known.
  revert g. induction entries as [|[name r] rest IH]; intros g Hent Hg; simpl.
  - exists g. split; [done|]. left. split; [done|]. split.
    + by intros ? ? ? ?%elem_of_nil.
    + intros e. split; [by left|].
      by intros [?|(? & ? & ? & ?%elem_of_nil & _)].
  - assert (Hname : resources !! name = Some r) by (apply Hent; left).
    destruct (range_after_spec name (WantAfter r) g)
      as (g1 & Hn1 & [(Hrun1 & Hall1 & He1)|(dep & Hrun1 & Hin & Hnone)]);
      [by rewrite Hname|done| |].
    2:{ exists g1. split; [done|]. right. exists name, r, dep. rewrite Hrun1.
        split; [done|]. split; [left|]. split; [apply elem_of_app; by left|done]. }
    rewrite Hrun1.
    assert (Hg1 : covers resources g1) by (intros k Hk; rewrite Hn1; by apply Hg).
    destruct (range_before_spec name (WantBefore r) g1)
      as (g2 & Hn2 & [(Hrun2 & Hall2 & He2)|(dep & Hrun2 & Hin & Hnone)]);
      [by rewrite Hname|done| |].
    2:{ exists g2. rewrite Hn2, Hn1. split; [done|]. right.
        exists name, r, dep. rewrite Hrun2.
        split; [done|]. split; [left|]. split; [apply elem_of_app; by right|done]. }
    rewrite Hrun2.
    assert (Hg2 : covers resources g2) by (intros k Hk; rewrite Hn2; by apply Hg1).
    destruct (IH g2)
      as (g' & Hn & [(Hrun & Hall & He)|(name' & r' & dep & Hrun & Hin & Hdep & Hnone)]);
      [intros; apply Hent; by right|done| |].
    + exists g'. split; [congruence|]. left. split; [done|]. split.
      * rewrite Forall_forall in Hall1. rewrite Forall_forall in Hall2.
        intros name' r' dep [[= -> ->]|?]%elem_of_cons Hdep.
        -- apply elem_of_app in Hdep as [?|?]; auto.
        -- by eapply Hall.
      * intros e. rewrite He, He2, He1. split.
        -- intros [[[?|(dep & ? & ->)]|(dep & ? & ->)]|(name' & r' & dep & ? & Hcase)].
           ++ by left.
           ++ right. exists name, r, dep. split; [left|]. by left.
           ++ right. exists name, r, dep. split; [left|]. by right.
           ++ right. exists name', r', dep. split; [by right|done].
        -- intros [?|(name' & r' & dep & [[= -> ->]|?]%elem_of_cons & Hcase)].
           ++ by left; left; left.
           ++ destruct Hcase as [[? ->]|[? ->]].
              ** left; left; right. by exists dep.
              ** left; right. by exists dep.
           ++ right. by exists name', r', dep.
    + exists g'. split; [congruence|]. right. exists name', r', dep.
      split; [done|]. split; [by right|done].
Qed.

End Connect.

(** The construction on a map whose entries the two loops enumerate. *)
Lemma ResourceCollectionGraph_spec
    (first second : list (string * Resource World))
    (resources : gmap string (Resource World)) :
  first ≡ₚ map_to_list resources →
  second ≡ₚ map_to_list resources →
  ∃ g,
    (∀ n : Node, n ∈ Nodes g ↔ is_Some (resources !! graph.Name n))
    ∧ ((ResourceCollectionGraph first second resources = Returned (g, None)
        ∧ (∀ name dep, ¬ missing_target resources name dep)
        ∧ ∀ e, e ∈ Edges g ↔ wanted_edge resources e)
       ∨ (∃ name dep,
            ResourceCollectionGraph first second resources
              = Returned (g, Some (ErrMissingDependency name dep))
            ∧ missing_target resources name dep)).
Proof.
  intros Hfirst Hsecond. unfold ResourceCollectionGraph.
  assert (Hkeys : ∀ k, k ∈ first.*1 ↔ is_Some (resources !! k)).
  { intros k. rewrite Hfirst, list_elem_of_fmap. split.
    - intros ([k' r] & -> & Hin%elem_of_map_to_list). by exists r.
    - intros [r Hr]. exists (k, r). split; [done|]. by apply elem_of_map_to_list. }
  assert (Hentries : ∀ name r, (name, r) ∈ second ↔ resources !! name = Some r).
  { intros name r. by rewrite Hsecond, elem_of_map_to_list. }
  assert (Hnodes : ∀ n : Node,
             n ∈ Nodes (range_nodes first.*1 NewGraph)
             ↔ is_Some (resources !! graph.Name n)).
  { intros n. rewrite range_nodes_Nodes, Hkeys. split; [|by right].
    by intros [?%elem_of_nil|?]. }
  destruct (range_connect_spec resources (resource_nodes first.*1)
              (fun k Hk => eq_trans (resource_nodes_lookup first.*1 k)
                             (decide_True _ _ (proj2 (Hkeys k) Hk)))
              second (range_nodes first.*1 NewGraph))
    as (g & Hn & [(Hrun & Hall & He)|(name & r & dep & Hrun & Hin & Hdep & Hnone)]).
  { intros name r. apply Hentries. }
  { intros k Hk. by apply Hnodes. }
  - exists g. split; [intros n; by rewrite Hn|]. left. split; [done|]. split.
    + intros name dep (r & Hr & Hdep & Hnone).
      destruct (Hall name r dep) as [x Hx]; [by apply Hentries|done|congruence].
    + intros e. rewrite He, range_nodes_Edges. unfold wanted_edge. split.
      * intros [?%elem_of_nil|(name & r & dep & ?%Hentries & ?)]; [done|].
        by exists name, r, dep.
      * intros (name & r & dep & ?%Hentries & ?). right. by exists name, r, dep.
  - exists g. split; [intros n; by rewrite Hn|]. right. exists name, dep.
    split; [done|]. exists r. split; [by apply Hentries|done].
Qed.

(** C5: let the two loops of [ResourceCollectionGraph] visit the entries of
    the resource map in any order.  If every target listed by a resource is in
    the map, the construction returns a graph and no error; the nodes of the
    graph are the resources of the map, and its edges are exactly: for each
    resource R and each D in [WantAfter] of R the edge from R to D, and for
    each D in [WantBefore] of R the edge from D to R.  If some listed target
    is not in the map, the construction returns an error that names a resource
    and a target that this resource lists and that the map does not hold. *)
Theorem ResourceCollectionGraph_edges
    (first second : list (string * Resource World))
    (resources : gmap string (Resource World)) :
  first ≡ₚ map_to_list resources →
  second ≡ₚ map_to_list resources →
  ((∀ name dep, ¬ missing_target resources name dep) →
     ∃ g,
       ResourceCollectionGraph first second resources = Returned (g, None)
       ∧ (∀ n : Node, n ∈ Nodes g ↔ is_Some (resources !! graph.Name n))
       ∧ ∀ e, e ∈ Edges g ↔ wanted_edge resources e)
  ∧ (∀ name dep, missing_target resources name dep →
       ∃ g name' dep',
         ResourceCollectionGraph first second resources
           = Returned (g, Some (ErrMissingDependency name' dep'))
         ∧ missing_target resources name' dep').
Proof.
  intros Hfirst Hsecond.
  destruct (ResourceCollectionGraph_spec first second resources Hfirst Hsecond)
    as (g & Hnodes & [(Hrun & Hall & He)|(name' & dep' & Hrun & Hmiss)]).
  - split; [by exists g|]. intros name dep Hmiss. by destruct (Hall name dep).
  - split; [intros Hall; by destruct (Hall name' dep')|].
    intros _ _ _. by exists g, name', dep'.
Qed.



End ResourceGraphFacts.

Lemma ResourceCollectionGraph_edges_witness :
  ((∀ name dep, ¬ missing_target chain name dep) →
     ∃ g,
       module.ResourceCollectionGraph (map_to_list chain)
         (reverse (map_to_list chain)) chain = Returned (g, None)
       ∧ (∀ n : graph.Node, n ∈ graph.Nodes g ↔ is_Some (chain !! graph.Name n))
       ∧ ∀ e, e ∈ graph.Edges g ↔ wanted_edge chain e)
  ∧ (∀ name dep, missing_target chain name dep →
       ∃ g name' dep',
         module.ResourceCollectionGraph (map_to_list chain)
           (reverse (map_to_list chain)) chain
           = Returned (g, Some (ErrMissingDependency name' dep'))
         ∧ missing_target chain name' dep').
Proof.
  apply (ResourceCollectionGraph_edges (map_to_list chain)
           (reverse (map_to_list chain)) chain);
    [reflexivity|apply reverse_Permutation].
Defined.

(** The graph of the three resources, its order, and the missing target. *)
Example chain_graph :
  module.ResourceCollectionGraph chain_entries chain_entries chain
  = Returned (graph.mkGraph
                [graph.NewNode "A"; graph.NewNode "B"; graph.NewNode "C"]
                [ (graph.NewNode "A", graph.NewNode "B");
                  (graph.NewNode "B", graph.NewNode "C");
                  (graph.NewNode "A", graph.NewNode "C") ],
              None)
  ∧ graph.Sort (graph.mkGraph
                  [graph.NewNode "A"; graph.NewNode "B"; graph.NewNode "C"]
                  [ (graph.NewNode "A", graph.NewNode "B");
                    (graph.NewNode "B", graph.NewNode "C");
                    (graph.NewNode "A", graph.NewNode "C") ])
    = ([graph.NewNode "C"; graph.NewNode "B"; graph.NewNode "A"], None)
  ∧ module.ResourceCollectionGraph (map_to_list orphan) (map_to_list orphan) orphan
    = Returned (graph.mkGraph [graph.NewNode "A"] [],
                Some (ErrMissingDependency "A" "Z")).
Proof. repeat split. Qed.

(** ** The resource collection and the load of a catalog *)

Section CollectionFacts.
Import resource module.
Context {World : Type}.
Implicit Types (m : Module World) (ms : list (Module World)).
Implicit Types (seen : list (string * string)) (mm : gmap string string).
Implicit Types (rm : gmap string (Resource World)).

Lemma agrees_empty : agrees [] ∅ (∅ : gmap string (Resource World)).
Proof.
  split; [constructor|]. split.
  - intros id. rewrite lookup_empty. split; [by intros [? ?]|by intros ?%elem_of_nil].
  - intros id. rewrite lookup_empty. by intros [? ?].
Qed.

Lemma agrees_insert seen mm rm (mname : string) (r : Resource World) :
  agrees seen mm rm → rm !! ResourceID r = None →
  agrees (seen ++ [(mname, ResourceID r)])
         (<[ResourceID r := mname]> mm) (<[ResourceID r := r]> rm).
Proof.
  intros (Hnodup & Hdom & Hmod) Hfresh.
  assert (Hnew : ResourceID r ∉ seen.*2).
  { intros Hin%Hdom. rewrite Hfresh in Hin. by destruct Hin. }
  split; [|split].
  - rewrite fmap_app. apply NoDup_app. split; [done|]. split.
    + intros id Hin ->%list_elem_of_singleton. done.
    + apply NoDup_singleton.
  - intros id. rewrite fmap_app, elem_of_app, <- Hdom, lookup_insert.
    simpl. rewrite list_elem_of_singleton.
    destruct (decide (ResourceID r = id)) as [->|Hne].
    + split; [by right|by eauto].
    + split; [by left|]. by intros [?|?].
  - intros id. rewrite !lookup_insert.
    destruct (decide (ResourceID r = id)) as [->|Hne].
    + intros _. exists mname. split; [done|]. apply elem_of_app. right. left.
    + intros (n & Hn & Hin)%Hmod. exists n. split; [done|].
      apply elem_of_app. by left.
Qed.

(** The inner loop.  Either it meets no id twice, or it stops at the first
    id that was met before, with an error that names the id, the module at
    hand, and the module of the earlier declaration. *)
Lemma range_Resources_spec (mname : string) (rs : list (Resource World))
    seen mm rm :
  agrees seen mm rm →
  ∃ mm' rm',
    (module.range_Resources mname rs mm rm = (mm', rm', None)
     ∧ agrees (seen ++ ((fun r => (mname, ResourceID r)) <$> rs)) mm' rm')
    ∨ (∃ id prev pre mid post,
         module.range_Resources mname rs mm rm
           = (mm', rm', Some (ErrDuplicateResource id mname prev))
         ∧ seen ++ ((fun r => (mname, ResourceID r)) <$> rs)
           = pre ++ (prev, id) :: mid ++ (mname, id) :: post
         ∧ NoDup (pre ++ (prev, id) :: mid).*2).
Proof.
  revert seen mm rm. induction rs as [|r rs IH]; intros seen mm rm Hagree.
  - exists mm, rm. left. by rewrite app_nil_r.
  - cbn [module.range_Resources].
    destruct (rm !! ResourceID r) as [old|] eqn:Hlook.
    + destruct Hagree as (Hnodup & _ & Hmod).
      destruct (Hmod (ResourceID r)) as (n & Hn & Hin); [by rewrite Hlook|].
      apply list_elem_of_split in Hin as (pre & mid & ->).
      exists mm, rm. right. exists (ResourceID r), n, pre, mid.
      exists ((fun r => (mname, ResourceID r)) <$> rs).
      rewrite Hn. split; [done|]. split; [|done].
      by rewrite fmap_cons, <- app_assoc.
    + destruct (IH _ _ _ (agrees_insert _ _ _ mname r Hagree Hlook))
        as (mm' & rm' & [(Hrun & Hagree')|(id & prev & pre & mid & post & Hrun & Hsplit & Hfirst)]);
        exists mm', rm'.
      * left. split; [done|]. by rewrite fmap_cons, cons_middle, app_assoc.
      * right. exists id, prev, pre, mid, post. split; [done|]. split; [|done].
        by rewrite fmap_cons, cons_middle, app_assoc.
Qed.

Lemma declarations_cons m ms :
  declarations (m :: ms)
  = ((fun r => (Name m, ResourceID r)) <$> Resources m) ++ declarations ms.
Proof. done. Qed.

Lemma declarations_app ms1 ms2 :
  declarations (ms1 ++ ms2) = declarations ms1 ++ declarations ms2.
Proof. apply bind_app. Qed.

(** The outer loop, on a slice without nil pointers. *)
Lemma range_Modules_spec ms seen mm rm :
  agrees seen mm rm →
  ∃ rm',
    (range_Modules (Some <$> ms) mm rm = Returned (rm', None)
     ∧ ∃ mm', agrees (seen ++ declarations ms) mm' rm')
    ∨ (∃ id mname prev pre mid post,
         range_Modules (Some <$> ms) mm rm
           = Returned (rm', Some (ErrDuplicateResource id mname prev))
         ∧ seen ++ declarations ms
           = pre ++ (prev, id) :: mid ++ (mname, id) :: post
         ∧ NoDup (pre ++ (prev, id) :: mid).*2).
Proof.
  revert seen mm rm. induction ms as [|m ms IH]; intros seen mm rm Hagree.
  - exists rm. left. split; [done|]. exists mm. by rewrite app_nil_r.
  - rewrite fmap_cons, declarations_cons. cbn [range_Modules].
    destruct (range_Resources_spec (Name m) (Resources m) seen mm rm Hagree)
      as (mm1 & rm1 & [(Hrun & Hagree1)|(id & prev & pre & mid & post & Hrun & Hsplit & Hfirst)]);
      rewrite Hrun.
    + destruct (IH _ _ _ Hagree1)
        as (rm' & [(Hrun' & mm' & Hagree')|(id & mname & prev & pre & mid & post & Hrun' & Hsplit & Hfirst)]);
        exists rm'.
      * left. split; [done|]. exists mm'. by rewrite app_assoc.
      * right. exists id, mname, prev, pre, mid, post. split; [done|].
        split; [|done]. by rewrite app_assoc.
    + exists rm1. right. exists id, (Name m), prev, pre, mid, (post ++ declarations ms).
      split; [done|]. split; [|done].
      rewrite app_assoc, Hsplit, <- !app_assoc. simpl.
      by rewrite <- app_assoc.
Qed.

(** Two modules of the list that declare the same id. *)
Lemma shared_id_not_NoDup (before between after : list (Module World))
    (m1 m2 : Module World) (id : string) :
  id ∈ ResourceID <$> Resources m1 →
  id ∈ ResourceID <$> Resources m2 →
  ¬ NoDup (declarations (before ++ m1 :: between ++ m2 :: after)).*2.
Proof.
  intros H1 H2.
  rewrite declarations_app, declarations_cons, declarations_app, declarations_cons.
  rewrite !fmap_app, <- !list_fmap_compose.
  intros (_ & _ & (_ & Hdisj & _)%NoDup_app)%NoDup_app.
  apply (Hdisj id); [done|]. apply elem_of_app. right. apply elem_of_app. by left.
Qed.

(** [ResourceCollection] on a list in which two modules declare the same
    id: it fails at the first declaration whose id was declared before, and
    its error names that id, the module of that declaration and the module
    of the earlier one. *)
Lemma ResourceCollection_duplicate (before between after : list (Module World))
    (m1 m2 : Module World) (id : string) :
  id ∈ ResourceID <$> Resources m1 →
  id ∈ ResourceID <$> Resources m2 →
  ∃ rm id' mname prev pre mid post,
    ResourceCollection (Some <$> (before ++ m1 :: between ++ m2 :: after))
      = Returned (rm, Some (ErrDuplicateResource id' mname prev))
    ∧ declarations (before ++ m1 :: between ++ m2 :: after)
      = pre ++ (prev, id') :: mid ++ (mname, id') :: post
    ∧ NoDup (pre ++ (prev, id') :: mid).*2.
Proof.
  intros H1 H2. unfold ResourceCollection.
  destruct (range_Modules_spec (before ++ m1 :: between ++ m2 :: after) [] ∅ ∅
              agrees_empty)
    as (rm & [(_ & mm' & (Hnodup & _))|(id' & mname & prev & pre & mid & post & Hrun & Hsplit)]).
  - by destruct (shared_id_not_NoDup before between after m1 m2 id).
  - by exists rm, id', mname, prev, pre, mid, post.
Qed.

Lemma range_Resources_holds (mname : string) (rs held : list (Resource World))
    mm rm :
  holds held rm →
  NoDup (ResourceID <$> (held ++ rs)) →
  ∃ mm' rm', module.range_Resources mname rs mm rm = (mm', rm', None)
    ∧ holds (held ++ rs) rm'.
Proof.
  revert held mm rm. induction rs as [|r rs IH]; intros held mm rm Hholds Hnd.
  { exists mm, rm. by rewrite app_nil_r. }
  cbn [module.range_Resources].
  rewrite cons_middle, app_assoc in Hnd |- *.
  assert (Hfresh : rm !! ResourceID r = None).
  { apply eq_None_not_Some. intros [old [Hold Hid]%Hholds].
    rewrite !fmap_app in Hnd. apply NoDup_app in Hnd as [Hnd _].
    apply NoDup_app in Hnd as (_ & Hdisj & _).
    apply (Hdisj (ResourceID r)); [|left].
    apply list_elem_of_fmap. by exists old. }
  rewrite Hfresh. apply IH; [|done].
  intros id r'. rewrite lookup_insert, elem_of_app, list_elem_of_singleton.
  destruct (decide (ResourceID r = id)) as [<-|Hne].
  - split; [intros [= <-]; by auto|]. intros [[Hin| ->] Hid]; [|done].
    assert (Hsome : rm !! ResourceID r = Some r') by by apply Hholds.
    congruence.
  - rewrite (Hholds id r'). split; [intros [? ?]; by auto|].
    intros [[?| ->] ?]; done.
Qed.

Lemma declarations_ids ms :
  (declarations ms).*2 = ResourceID <$> (ms ≫= module.Resources).
Proof.
  induction ms as [|m ms IH]; [done|].
  rewrite declarations_cons, bind_cons, !fmap_app, IH. f_equal.
  rewrite <- list_fmap_compose. done.
Qed.

Lemma range_Modules_holds ms (held : list (Resource World)) mm rm :
  holds held rm →
  NoDup (ResourceID <$> (held ++ (ms ≫= module.Resources))) →
  ∃ rm', range_Modules (Some <$> ms) mm rm = Returned (rm', None)
    ∧ holds (held ++ (ms ≫= module.Resources)) rm'.
Proof.
  revert held mm rm. induction ms as [|m ms IH]; intros held mm rm Hholds Hnd.
  { exists rm. by rewrite app_nil_r. }
  rewrite fmap_cons, bind_cons, app_assoc in *. cbn [range_Modules].
  destruct (range_Resources_holds (Name m) (module.Resources m) held mm rm Hholds)
    as (mm1 & rm1 & -> & Hholds1).
  { rewrite fmap_app in Hnd. by apply NoDup_app in Hnd as [? _]. }
  by apply IH.
Qed.

(** X6: on every list of modules, [ResourceCollection] returns; it returns
    no error exactly when no resource id is declared twice in the list, and
    the map that it then returns holds every resource that a module of the
    list declares, under the id of the resource, and nothing else. *)
Theorem ResourceCollection_unique ms :
  ∃ rm err,
    ResourceCollection (Some <$> ms) = Returned (rm, err)
    ∧ (err = None ↔ NoDup (declarations ms).*2)
    ∧ (err = None → ∀ id r,
         rm !! id = Some r
         ↔ ResourceID r = id ∧ ∃ m, m ∈ ms ∧ r ∈ module.Resources m).
Proof.
  unfold ResourceCollection.
  destruct (decide (NoDup (declarations ms).*2)) as [Hnd|Hdup].
  - destruct (range_Modules_holds ms [] ∅ ∅) as (rm & Hrun & Hholds).
    { intros id r. rewrite lookup_empty. split; [done|]. by intros [?%elem_of_nil _]. }
    { rewrite app_nil_l. by rewrite <- declarations_ids. }
    exists rm, None. split; [done|]. split; [done|]. intros _ id r.
    rewrite (Hholds id r). simpl. rewrite list_elem_of_bind.
    split; [intros [(m & ? & ?) ?]; by eauto|intros [? (m & ? & ?)]; by eauto].
  - destruct (range_Modules_spec ms [] ∅ ∅ agrees_empty)
      as (rm & [(_ & mm' & (Hnd & _))|(id & mname & prev & pre & mid & post & Hrun & Hsplit & _)]);
      [done|].
    exists rm, (Some (ErrDuplicateResource id mname prev)).
    split; [done|]. split; [|done]. split; [done|]. intros Hnd. done.
Qed.

End CollectionFacts.

Section LoadFacts.
Import resource module catalog.
Context {World : Type}.
Variable DiscoverAndLoad : string -> result (gmap string (Module World)).
Variable Sort : graph.Graph -> list graph.Node * option error.
Variable DependencyGraph :
  gmap string (Resource World) -> outcome (graph.Graph * option error).

(** C3 (amended): let the sorted module list hold two modules that declare
    resources with the same id.  Then [Load] returns an error for the first
    declaration of the list whose id was declared before: the error names
    that id, the module of that declaration and the module of the earlier
    one.  The catalog that it returns beside the error holds no resource,
    and it holds the sorted modules, which were appended before the
    collection of the resources. *)
Theorem Load_duplicate_resource (config : Config)
    (modules : gmap string (Module World)) (g : graph.Graph)
    (sorted : list graph.Node)
    (before between after : list (Module World)) (m1 m2 : Module World)
    (id : string) :
  DiscoverAndLoad (Path (ModuleConfig_ config)) = Ok modules →
  ImportGraph DiscoverAndLoad (Main config) (Path (ModuleConfig_ config))
    = Returned (g, None) →
  Sort g = (sorted, None) →
  (fun node => modules !! graph.Name node) <$> sorted
    = Some <$> (before ++ m1 :: between ++ m2 :: after) →
  id ∈ ResourceID <$> module.Resources m1 →
  id ∈ ResourceID <$> module.Resources m2 →
  ∃ id' mname prev pre mid post,
    Load DiscoverAndLoad Sort DependencyGraph config
      = Returned (mkCatalog (Some <$> (before ++ m1 :: between ++ m2 :: after))
                            [] config,
                  Some (ErrDuplicateResource id' mname prev))
    ∧ declarations (before ++ m1 :: between ++ m2 :: after)
      = pre ++ (prev, id') :: mid ++ (mname, id') :: post
    ∧ NoDup (pre ++ (prev, id') :: mid).*2.
Proof.
  intros Hdiscover Hgraph Hsort Hmodules H1 H2.
  destruct (ResourceCollection_duplicate before between after m1 m2 id H1 H2)
    as (rm & id' & mname & prev & pre & mid & post & Hrun & Hsplit).
  exists id', mname, prev, pre, mid, post. split; [|done].
  unfold Load. rewrite Hdiscover, Hgraph, Hsort. cbn [Modules catalog.Resources app].
  by rewrite Hmodules, Hrun.
Qed.

(** The missing import that [ImportGraph] does report, one of the main
    module itself, makes [Load] fail with the empty catalog. *)
Lemma Load_missing_import_of_main (config : Config)
    (modules : gmap string (Module World)) (m : Module World) (e : error) :
  keyed modules →
  DiscoverAndLoad (Path (ModuleConfig_ config)) = Ok modules →
  modules !! Main config = Some m →
  first_missing modules (Main config) (Imports m) = Some e →
  Load DiscoverAndLoad Sort DependencyGraph config
    = Returned (mkCatalog [] [] config, Some e).
Proof.
  intros Hkeyed Hdiscover Hmain Hmissing.
  destruct (ImportGraph_error modules DiscoverAndLoad (Main config)
              (Path (ModuleConfig_ config)) m Hkeyed Hdiscover Hmain)
    as [g Hgraph].
  unfold Load. by rewrite Hdiscover, Hgraph, Hmissing.
Qed.

End LoadFacts.

Lemma Load_duplicate_resource_witness :
  ∃ id' mname prev pre mid post,
    example_Load nginx_twice "m1"
      = Returned (catalog.mkCatalog (Some <$> ([] ++ m2 :: [] ++ m1 :: []))
                                    [] (main_config "m1"),
                  Some (ErrDuplicateResource id' mname prev))
    ∧ declarations ([] ++ m2 :: [] ++ m1 :: [])
      = pre ++ (prev, id') :: mid ++ (mname, id') :: post
    ∧ NoDup (pre ++ (prev, id') :: mid).*2.
Proof.
  apply (Load_duplicate_resource (fun _ => Ok nginx_twice) graph.Sort
           example_DependencyGraph (main_config "m1") nginx_twice
           (graph.mkGraph [graph.NewNode "m1"; graph.NewNode "m2"]
                          [(graph.NewNode "m1", graph.NewNode "m2")])
           [graph.NewNode "m2"; graph.NewNode "m1"]
           [] [] [] m2 m1 "package[nginx]");
    try reflexivity; by left.
Defined.

(** Against C3 as stated: the modules [m1] and [m2] both declare
    [package[nginx]].  [Load] fails with the error that names the id and the
    two modules, and the catalog that it returns holds both modules. *)
Lemma Load_returns_modules_on_duplicate :
  example_Load nginx_twice "m1"
  = Returned (catalog.mkCatalog [Some m2; Some m1] [] (main_config "m1"),
              Some (ErrDuplicateResource "package[nginx]" "m1" "m2"))
  ∧ Error (ErrDuplicateResource "package[nginx]" "m1" "m2")
    = "Duplicate resource package[nginx] in m1, previous declaration was in m2".
Proof. split; reflexivity. Qed.

Section LoadFailure.
Import resource module catalog.
Context {World : Type}.
Variable DiscoverAndLoad : string -> result (gmap string (Module World)).
Variable Sort : graph.Graph -> list graph.Node * option error.
Variable DependencyGraph :
  gmap string (Resource World) -> outcome (graph.Graph * option error).

(** X7: whenever [Load] returns an error, the catalog that it returns
    beside it holds no resource and the given configuration; and it holds no
    module either, unless the modules were discovered, their import graph was
    built and sorted without an error, and the failure came later: it then
    holds the modules in the order of the sort. *)
Theorem Load_failure_holds_no_resource (config : Config) (c : Catalog World)
    (e : error) :
  Load DiscoverAndLoad Sort DependencyGraph config = Returned (c, Some e) →
  Resources c = [] ∧ Config_ c = config
  ∧ (Modules c = []
     ∨ ∃ modules g sorted,
         DiscoverAndLoad (Path (ModuleConfig_ config)) = Ok modules
         ∧ ImportGraph DiscoverAndLoad (Main config) (Path (ModuleConfig_ config))
           = Returned (g, None)
         ∧ Sort g = (sorted, None)
         ∧ Modules c = (fun node => modules !! graph.Name node) <$> sorted).
Proof.
  unfold Load.
  destruct (DiscoverAndLoad _) as [modules|?]; [|intros [= <- _]; by auto].
  destruct (ImportGraph _ _ _) as [[g [?|]]| |]; [intros [= <- _]; by auto| |done|done].
  destruct (Sort g) as [sorted [?|]] eqn:Hsort; [intros [= <- _]; by auto|].
  cbn [Modules catalog.Resources app].
  assert (Hmodules : ∀ c' : Catalog World,
    c' = mkCatalog ((fun node => modules !! graph.Name node) <$> sorted) [] config →
    Resources c' = [] ∧ Config_ c' = config
    ∧ (Modules c' = []
       ∨ ∃ modules' g' sorted',
           Ok modules = Ok modules'
           ∧ Returned (g, @None error) = Returned (g', None)
           ∧ Sort g' = (sorted', None)
           ∧ Modules c' = (fun node => modules' !! graph.Name node) <$> sorted')).
  { intros c' ->. split; [done|]. split; [done|]. right. by exists modules, g, sorted. }
  destruct (ResourceCollection _) as [[collection [?|]]| |];
    [intros [= <- _]; by apply Hmodules| |done|done].
  destruct (DependencyGraph _) as [[g2 [?|]]| |];
    [intros [= <- _]; by apply Hmodules| |done|done].
  destruct (Sort g2) as [sorted2 [?|]]; [intros [= <- _]; by apply Hmodules|done].
Qed.

End LoadFailure.

Lemma Load_failure_holds_no_resource_witness :
  catalog.Resources (catalog.mkCatalog [Some m2; Some m1] [] (main_config "m1")) = []
  ∧ catalog.Config_ (catalog.mkCatalog [Some m2; Some m1] [] (main_config "m1"))
    = main_config "m1"
  ∧ (catalog.Modules (catalog.mkCatalog [Some m2; Some m1] [] (main_config "m1")) = []
     ∨ ∃ modules g sorted,
         Ok nginx_twice = Ok modules
         ∧ module.ImportGraph (fun _ => Ok nginx_twice) "m1" "/etc/gru/modules"
           = Returned (g, None)
         ∧ graph.Sort g = (sorted, None)
         ∧ catalog.Modules (catalog.mkCatalog [Some m2; Some m1] [] (main_config "m1"))
           = (fun node => modules !! graph.Name node) <$> sorted).
Proof.
  apply (Load_failure_holds_no_resource (fun _ => Ok nginx_twice) graph.Sort
           example_DependencyGraph (main_config "m1")
           (catalog.mkCatalog [Some m2; Some m1] [] (main_config "m1"))
           (ErrDuplicateResource "package[nginx]" "m1" "m2")).
  reflexivity.
Defined.

(** ** The evaluation loop of the catalog *)

Section RunFacts.
Import resource catalog.
Context {World : Type}.
Implicit Types (r : Resource World) (st : RunState World) (config : Config).

(** What one iteration adds to the run state. *)
Lemma process_effect config r st :
  ∃ ks ls,
    calls (process config r st) = calls st ++ ks
    ∧ written (process config r st) = written st ++ ls
    ∧ evaluated ks = [ResourceID r]
    ∧ Forall (fun k => call_id k = ResourceID r) ks
    ∧ (∀ k e, k ∈ ks → call_err k = Some e → error_line (call_id k) e ∈ ls)
    ∧ (DryRun config = true → Forall (fun k => call_op k = OpEvaluate) ks).
Proof.
  unfold process, invoke_Evaluate, transition, invoke, Fprintf, evaluated, error_line.
  destruct (Evaluate r (world st)) as [w [state|err]]; simpl.
  2:{ eexists [_], [_]. repeat split; try done.
      - by repeat constructor.
      - intros k e ->%list_elem_of_singleton [= <-]. set_solver.
      - by repeat constructor. }
  destruct (DryRun config); simpl.
  { eexists [_], []. split; [reflexivity|]. split; [by rewrite app_nil_r|].
    repeat split; try done.
    - by repeat constructor.
    - intros k e ->%list_elem_of_singleton [=].
    - by repeat constructor. }
  destruct state as [cur want upd].
  destruct cur, want, upd; simpl;
    repeat match goal with
      | |- context [Create r ?w] => destruct (Create r w) as [? [?|]]; simpl
      | |- context [Delete r ?w] => destruct (Delete r w) as [? [?|]]; simpl
      | |- context [DoUpdate r ?w] => destruct (DoUpdate r w) as [? [?|]]; simpl
      end;
    rewrite <- ?app_assoc; simpl.
  all: eexists _, _; split; [reflexivity|];
    split; [first [reflexivity | symmetry; apply app_nil_r]|].
  all: repeat split; try done; try (by repeat constructor).
  all: intros ? ? Hk He;
    repeat (apply elem_of_cons in Hk as [->|Hk]); simpl in *;
    try (by apply elem_of_nil in Hk); simplify_eq; set_solver.
Qed.
Lemma evaluated_app (ks1 ks2 : list Call) :
  evaluated (ks1 ++ ks2) = evaluated ks1 ++ evaluated ks2.
Proof. unfold evaluated. by rewrite filter_app, fmap_app. Qed.

(** What the loop over the resources adds to the run state. *)
Lemma range_Resources_effect config (rs : list (Resource World)) st :
  ∃ st' ks ls,
    range_Resources config (Some <$> rs) st = Returned st'
    ∧ calls st' = calls st ++ ks
    ∧ written st' = written st ++ ls
    ∧ evaluated ks = ResourceID <$> rs
    ∧ (∀ k e, k ∈ ks → call_err k = Some e → error_line (call_id k) e ∈ ls)
    ∧ (DryRun config = true → Forall (fun k => call_op k = OpEvaluate) ks).
Proof.
  revert st. induction rs as [|r rs IH]; intros st.
  - exists st, [], []. rewrite !app_nil_r. repeat split; try done.
    intros k e Hk. by apply elem_of_nil in Hk.
  - rewrite fmap_cons. cbn [range_Resources].
    destruct (process_effect config r st)
      as (ks1 & ls1 & Hc1 & Hw1 & He1 & _ & Hl1 & Hd1).
    destruct (IH (process config r st))
      as (st' & ks2 & ls2 & Hrun & Hc2 & Hw2 & He2 & Hl2 & Hd2).
    exists st', (ks1 ++ ks2), (ls1 ++ ls2).
    rewrite Hrun, Hc2, Hw2, Hc1, Hw1, <- !app_assoc, evaluated_app, He1, He2.
    repeat split; try done.
    + intros k e [Hk|Hk]%elem_of_app Herr; apply elem_of_app; eauto.
    + intros Hdry. apply Forall_app; auto.
Qed.

(** In a dry run the only operation called on any resource is [Evaluate]. *)
Lemma Run_DryRun_only_evaluates (c : Catalog World) (rs : list (Resource World))
    (w : World) (st : RunState World) (err : option error) :
  Resources c = Some <$> rs →
  DryRun (Config_ c) = true →
  Run c w = Returned (st, err) →
  Forall (fun k => call_op k = OpEvaluate) (calls st).
Proof.
  intros Hrs Hdry. unfold Run. rewrite Hrs.
  destruct (range_Resources_effect (Config_ c) rs
              (Fprintf (mkRunState w [] []) ("Loaded " +:+ decimal (length (Some <$> rs))
                 +:+ " resources from " +:+ decimal (length (Modules c))
                 +:+ " modules" +:+ nl)))
    as (st' & ks & ls & -> & Hc & _ & _ & _ & Hd).
  intros [= <- _]. rewrite Hc. simpl. auto.
Qed.

(** C6: on every list of resources [Run] returns, and it returns no error;
    [Evaluate] has then been called on every resource of the list, in the
    order of the list, whatever the calls on the resources before it
    returned; and for every call of [Evaluate], [Create], [Delete] or
    [Update] that returned an error, the line made of the resource id and
    the error has been handed to the writer. *)
Theorem Run_logs_errors_and_goes_on (c : Catalog World)
    (rs : list (Resource World)) (w : World) :
  Resources c = Some <$> rs →
  ∃ st,
    Run c w = Returned (st, None)
    ∧ evaluated (calls st) = ResourceID <$> rs
    ∧ ∀ k e, k ∈ calls st → call_err k = Some e →
        error_line (call_id k) e ∈ written st.
Proof.
  intros Hrs. unfold Run. rewrite Hrs.
  destruct (range_Resources_effect (Config_ c) rs
              (Fprintf (mkRunState w [] []) ("Loaded " +:+ decimal (length (Some <$> rs))
                 +:+ " resources from " +:+ decimal (length (Modules c))
                 +:+ " modules" +:+ nl)))
    as (st' & ks & ls & -> & Hc & Hw & He & Hl & _).
  exists st'. split; [done|]. rewrite Hc, Hw. simpl. split; [done|].
  intros k e Hk Herr. apply elem_of_cons. right. eauto.
Qed.
(** [Run] is the header line followed by one turn per resource. *)
Lemma range_Resources_turns config (rs : list (Resource World)) st :
  range_Resources config (Some <$> rs) st = Returned (turns config rs st).
Proof.
  revert st. induction rs as [|r rs IH]; intros st; [done|].
  rewrite fmap_cons. cbn [range_Resources]. by rewrite IH.
Qed.

Lemma Run_turns (c : Catalog World) (rs : list (Resource World)) (w : World) :
  Resources c = Some <$> rs →
  Run c w = Returned (turns (Config_ c) rs (start c w), None).
Proof.
  intros Hrs. unfold Run. fold (start c w). by rewrite Hrs, range_Resources_turns.
Qed.

Lemma turns_app config (rs1 rs2 : list (Resource World)) st :
  turns config (rs1 ++ rs2) st = turns config rs2 (turns config rs1 st).
Proof. apply fold_left_app. Qed.
(** The turn of a resource in a dry run: the call of [Evaluate], and the
    line of its error if it failed. *)
Lemma process_DryRun config r st :
  DryRun config = true →
  process config r st
  = match Evaluate r (world st) with
    | (w, Ok _) =>
        mkRunState w (written st)
                   (calls st ++ [mkCall (ResourceID r) OpEvaluate None])
    | (w, Failed e) =>
        mkRunState w (written st ++ [error_line (ResourceID r) e])
                   (calls st ++ [mkCall (ResourceID r) OpEvaluate (Some e)])
    end.
Proof.
  intros Hdry. unfold process, invoke_Evaluate, Fprintf, error_line.
  destruct (Evaluate r (world st)) as [w [state|e]]; simpl; [|done].
  by rewrite Hdry.
Qed.

(** In a dry run the writer receives the header and, for each evaluation
    that failed, the line of its error; nothing else. *)
Lemma turns_DryRun_written config (rs : list (Resource World)) st (line : string) :
  DryRun config = true →
  line ∈ written (turns config rs st) →
  line ∈ written st
  ∨ ∃ k e, k ∈ calls (turns config rs st) ∧ call_op k = OpEvaluate
           ∧ call_err k = Some e ∧ line = error_line (call_id k) e.
Proof.
  intros Hdry. revert st. induction rs as [|r rs IH]; intros st; [by left|].
  cbn [turns fold_left]. intros [Hin|Hin]%IH; [|by right].
  rewrite (process_DryRun _ _ _ Hdry) in Hin.
  destruct (range_Resources_effect config rs (process config r st))
    as (st' & ks & ls & Hrun & Hc & _).
  rewrite range_Resources_turns in Hrun. injection Hrun as <-.
  destruct (Evaluate r (world st)) as [w [state|e]] eqn:Heval; [by left|].
  cbn [written] in Hin. apply elem_of_app in Hin as [?|Hin]; [by left|].
  apply list_elem_of_singleton in Hin as ->.
  right. exists (mkCall (ResourceID r) OpEvaluate (Some e)), e.
  split; [|done]. unfold turns in Hc. rewrite Hc, (process_DryRun _ _ _ Hdry), Heval.
  cbn [calls]. apply elem_of_app. left. apply elem_of_app. right. left.
Qed.


End RunFacts.

Lemma Run_logs_errors_and_goes_on_witness :
  ∃ st,
    catalog.Run broken_catalog tt = Returned (st, None)
    ∧ evaluated (catalog.calls st) = ["service[ntpd]"; "package[tmux]"; "file[hosts]"]
    ∧ ∀ k e, k ∈ catalog.calls st → catalog.call_err k = Some e →
        error_line (catalog.call_id k) e ∈ catalog.written st.
Proof. apply (Run_logs_errors_and_goes_on broken_catalog broken tt). reflexivity. Defined.



(** C1: the catalog holds the one resource [package[nginx]], absent and
    declared present.  In a dry run the only call is [Evaluate], and the only
    line handed to the writer is the header: the line "is absent, should be
    present" is not written.  The same catalog, not in a dry run, writes that
    line and calls [Create]. *)
Theorem Run_DryRun_writes_no_report :
  catalog.Run (nginx_catalog true) tt
    = Returned
        (catalog.mkRunState tt
           [ "Loaded 1 resources from 0 modules" +:+ nl ]
           [ catalog.mkCall "package[nginx]" catalog.OpEvaluate None ],
         None)
  ∧ catalog.Run (nginx_catalog false) tt
    = Returned
        (catalog.mkRunState tt
           [ "Loaded 1 resources from 0 modules" +:+ nl;
             "package[nginx] is absent, should be present" +:+ nl ]
           [ catalog.mkCall "package[nginx]" catalog.OpEvaluate None;
             catalog.mkCall "package[nginx]" catalog.OpCreate None ],
         None).
Proof. split; reflexivity. Qed.

(** ** The calls and the lines of a run *)

Section RunMore.
Import resource catalog.
Context {World : Type}.
Implicit Types (r : Resource World) (st : RunState World) (config : Config).

Lemma error_lines_app (ks1 ks2 : list Call) :
  error_lines (ks1 ++ ks2) = error_lines ks1 ++ error_lines ks2.
Proof. apply omap_app. Qed.

(** A turn that only evaluates. *)
Lemma process_only_evaluates config r st :
  DryRun config = true ∨ settled r →
  ∃ k, calls (process config r st) = calls st ++ [k]
    ∧ written (process config r st) = written st ++ error_lines [k]
    ∧ call_id k = ResourceID r ∧ call_op k = OpEvaluate.
Proof.
  intros Hquiet.
  unfold process, invoke_Evaluate, transition, Fprintf, error_lines, error_line.
  destruct (Evaluate r (world st)) as [w [s|e]] eqn:Heval; simpl.
  2:{ by exists (mkCall (ResourceID r) OpEvaluate (Some e)). }
  exists (mkCall (ResourceID r) OpEvaluate None). simpl. rewrite app_nil_r.
  destruct Hquiet as [->|Hsettled]; [done|].
  destruct (Hsettled _ _ _ Heval) as [Hwant Hupdate].
  destruct (DryRun config); [done|].
  by rewrite bool_decide_eq_true_2, Hupdate by done.
Qed.

Lemma turns_only_evaluate config (rs : list (Resource World)) st :
  DryRun config = true ∨ Forall settled rs →
  ∃ ks, calls (turns config rs st) = calls st ++ ks
    ∧ written (turns config rs st) = written st ++ error_lines ks
    ∧ call_id <$> ks = ResourceID <$> rs
    ∧ Forall (fun k => call_op k = OpEvaluate) ks.
Proof.
  intros Hquiet. revert st. induction rs as [|r rs IH]; intros st.
  { exists []. by rewrite !app_nil_r. }
  destruct (process_only_evaluates config r st) as (k & Hc & Hw & Hid & Hop).
  { destruct Hquiet as [?|Hall]; [by left|right]. by apply Forall_cons in Hall as [? _]. }
  destruct IH with (st := process config r st) as (ks & Hcs & Hws & Hids & Hops).
  { destruct Hquiet as [?|Hall]; [by left|right]. by apply Forall_cons in Hall as [_ ?]. }
  exists (k :: ks). cbn [turns fold_left]. unfold turns in *.
  rewrite Hcs, Hws, Hc, Hw, <- !app_assoc, !fmap_cons, Hid, Hids.
  split; [done|]. split; [|split; [done|by constructor]].
  f_equal. change (k :: ks) with ([k] ++ ks). by rewrite error_lines_app.
Qed.

(** X8: in a dry run over any list of resources, [Run] returns no error;
    the calls that it made are one call of [Evaluate] per resource, in the
    order of the list, and no call of [Create], [Delete] or [Update]; and
    the writer received the header line followed by one line per evaluation
    that failed, in the order of the calls, and nothing else. *)
Theorem Run_DryRun_trace (c : Catalog World) (rs : list (Resource World)) (w : World) :
  Resources c = Some <$> rs →
  DryRun (Config_ c) = true →
  ∃ st,
    Run c w = Returned (st, None)
    ∧ call_id <$> calls st = ResourceID <$> rs
    ∧ Forall (fun k => call_op k = OpEvaluate) (calls st)
    ∧ written st = written (start c w) ++ error_lines (calls st).
Proof.
  intros Hrs Hdry. rewrite (Run_turns c rs w Hrs).
  destruct (turns_only_evaluate (Config_ c) rs (start c w) (or_introl Hdry))
    as (ks & Hc & Hw & Hids & Hops).
  eexists. split; [done|]. rewrite Hc, Hw. done.
Qed.

(** X9: in a run, dry or not, over resources that need nothing (each
    evaluation that succeeds reports the declared state as the current one
    and nothing out of date), [Run] calls [Evaluate] once per resource, in
    the order of the list, and nothing else; the writer receives the header
    line and the lines of the evaluations that failed. *)
Theorem Run_settled_only_evaluates (c : Catalog World) (rs : list (Resource World))
    (w : World) :
  Resources c = Some <$> rs →
  Forall settled rs →
  ∃ st,
    Run c w = Returned (st, None)
    ∧ call_id <$> calls st = ResourceID <$> rs
    ∧ Forall (fun k => call_op k = OpEvaluate) (calls st)
    ∧ written st = written (start c w) ++ error_lines (calls st).
Proof.
  intros Hrs Hsettled. rewrite (Run_turns c rs w Hrs).
  destruct (turns_only_evaluate (Config_ c) rs (start c w) (or_intror Hsettled))
    as (ks & Hc & Hw & Hids & Hops).
  eexists. split; [done|]. rewrite Hc, Hw. done.
Qed.

(** The calls of a turn that follows a successful evaluation. *)
Lemma process_actions config r st (w' : World) (s : State) :
  DryRun config = false →
  Evaluate r (world st) = (w', Ok s) →
  ∃ ks,
    calls (process config r st) = calls st ++ ks
    ∧ Forall (fun k => call_id k = ResourceID r) ks
    ∧ call_op <$> ks = OpEvaluate :: life_action s ++ update_action s.
Proof.
  intros Hdry Heval.
  unfold process, invoke_Evaluate, transition, invoke, Fprintf.
  rewrite Heval, Hdry. destruct s as [cur want upd].
  unfold life_action, update_action, create_row, delete_row, declared_state.
  destruct cur, want, upd; simpl;
    repeat match goal with
      | |- context [Create r ?w] => destruct (Create r w) as [? [?|]]; simpl
      | |- context [Delete r ?w] => destruct (Delete r w) as [? [?|]]; simpl
      | |- context [DoUpdate r ?w] => destruct (DoUpdate r w) as [? [?|]]; simpl
      end;
    rewrite <- ?app_assoc; simpl;
    eexists; (split; [reflexivity|]);
    (split; [by repeat constructor|reflexivity]).
Qed.

(** X10: in a run that is not a dry run, take a resource [r] that the loop
    reaches after the resources [rs1] and whose evaluation succeeds with the
    state [s].  The calls of the turn of [r] are all on [r] and are, in
    order: [Evaluate]; then [Create] if the pair of [s] is a create row, or
    [Delete] if it is a delete row; then [Update] if [s] says so, unless the
    declared state is none of the four life states and differs from the
    current one.  This holds whatever [Create], [Delete] and [Update] return:
    a failed [Create] or [Delete] does not keep [Update] from being called.
    The run then goes on with the resources [rs2]. *)
Theorem Run_actions (c : Catalog World) (rs1 rs2 : list (Resource World))
    (r : Resource World) (w w' : World) (s : State) :
  Resources c = Some <$> (rs1 ++ r :: rs2) →
  DryRun (Config_ c) = false →
  Evaluate r (world (turns (Config_ c) rs1 (start c w))) = (w', Ok s) →
  ∃ st2 ks,
    Run c w = Returned (turns (Config_ c) rs2 st2, None)
    ∧ calls st2 = calls (turns (Config_ c) rs1 (start c w)) ++ ks
    ∧ Forall (fun k => call_id k = ResourceID r) ks
    ∧ call_op <$> ks = OpEvaluate :: life_action s ++ update_action s.
Proof.
  intros Hrs Hdry Heval.
  destruct (process_actions (Config_ c) r _ w' s Hdry Heval) as (ks & Hc & Hid & Hop).
  exists (process (Config_ c) r (turns (Config_ c) rs1 (start c w))), ks.
  split; [|done].
  by rewrite (Run_turns c _ w Hrs), turns_app.
Qed.

End RunMore.

Lemma Run_DryRun_trace_witness :
  ∃ st,
    catalog.Run broken_dry_catalog tt = Returned (st, None)
    ∧ catalog.call_id <$> catalog.calls st = resource.ResourceID <$> broken
    ∧ Forall (fun k => catalog.call_op k = catalog.OpEvaluate) (catalog.calls st)
    ∧ catalog.written st
      = catalog.written (start broken_dry_catalog tt) ++ error_lines (catalog.calls st).
Proof. apply (Run_DryRun_trace broken_dry_catalog broken tt); reflexivity. Defined.

Lemma Run_settled_only_evaluates_witness :
  ∃ st,
    catalog.Run calm_catalog tt = Returned (st, None)
    ∧ catalog.call_id <$> catalog.calls st = resource.ResourceID <$> calm
    ∧ Forall (fun k => catalog.call_op k = catalog.OpEvaluate) (catalog.calls st)
    ∧ catalog.written st
      = catalog.written (start calm_catalog tt) ++ error_lines (catalog.calls st).
Proof.
  apply (Run_settled_only_evaluates calm_catalog calm tt); [reflexivity|].
  unfold calm. apply Forall_cons_2; [|apply Forall_cons_2; [|constructor]];
    unfold settled; intros w w' s Heq; cbn in Heq; by simplify_eq.
Defined.

Lemma Run_actions_witness :
  ∃ st2 ks,
    catalog.Run broken_catalog tt
      = Returned (turns (example_config false)
                    [fixed_resource "file[hosts]"
                       (Ok (resource.mkState resource.StatePresent
                              resource.StatePresent false))
                       None None None]
                    st2, None)
    ∧ catalog.calls st2
        = catalog.calls (turns (example_config false)
                           [fixed_resource "service[ntpd]"
                              (Failed (ErrOther "exit status 1")) None None None]
                           (start broken_catalog tt))
            ++ ks
    ∧ Forall (fun k => catalog.call_id k = "package[tmux]") ks
    ∧ catalog.call_op <$> ks
        = catalog.OpEvaluate
          :: life_action (resource.mkState resource.StateAbsent
                            resource.StatePresent true)
             ++ update_action (resource.mkState resource.StateAbsent
                                 resource.StatePresent true).
Proof.
  apply (Run_actions broken_catalog
           [fixed_resource "service[ntpd]" (Failed (ErrOther "exit status 1"))
              None None None]
           [fixed_resource "file[hosts]"
              (Ok (resource.mkState resource.StatePresent resource.StatePresent false))
              None None None]
           (fixed_resource "package[tmux]"
              (Ok (resource.mkState resource.StateAbsent resource.StatePresent true))
              (Some (ErrOther "no such package")) None (Some (ErrOther "locked")))
           tt tt
           (resource.mkState resource.StateAbsent resource.StatePresent true));
    reflexivity.
Defined.

(** ** The catalog that Load returns *)




Section LoadComplete.
Import resource module catalog.
Context {World : Type}.
Variable DiscoverAndLoad : string -> result (gmap string (Module World)).
Variable Sort : graph.Graph -> list graph.Node * option error.
Variable DependencyGraph :
  gmap string (Resource World) -> outcome (graph.Graph * option error).
Variable config : Config.
Variable modules : gmap string (Module World).
Hypothesis modules_keyed : keyed modules.
Hypothesis discovered : DiscoverAndLoad (Path (ModuleConfig_ config)) = Ok modules.
Hypothesis Sort_permutes :
  ∀ g ns, NoDup (graph.Nodes g) → Sort g = (ns, None) → ns ≡ₚ graph.Nodes g.
Hypothesis DependencyGraph_nodes :
  ∀ rm g, DependencyGraph rm = Returned (g, None) →
    graph.Nodes g ≡ₚ graph.NewNode <$> (map_to_list rm).*1.



Hypothesis Sort_orders :
  ∀ g ns, (∀ a b, (a, b) ∈ graph.Edges g → a ∈ graph.Nodes g ∧ b ∈ graph.Nodes g) →
    NoDup (graph.Nodes g) → Sort g = (ns, None) →
    ∀ a b, (a, b) ∈ graph.Edges g → before b a ns.
Hypothesis DependencyGraph_edges :
  ∀ rm g, DependencyGraph rm = Returned (g, None) →
    (∀ name dep, ¬ missing_target rm name dep)
    ∧ ∀ e, e ∈ graph.Edges g ↔ wanted_edge rm e.


End LoadComplete.







(** ** The minion *)

Section MinionFacts.
Import minion.
Context {Sys : Type} (host : Host Sys).
Implicit Types (st : MinionState Sys) (m : etcdMinion) (node : Node).

Lemma without_log_app (tr1 tr2 : list Event) :
  without_log (tr1 ++ tr2) = without_log tr1 ++ without_log tr2.
Proof.
  induction tr1 as [|e tr1 IH]; [done|].
  destruct e; simpl; by rewrite ?IH.
Qed.








(** When the listing fails, [checkQueue] gives up without an error. *)
Lemma checkQueue_no_listing m st (s : Sys) (e : error) :
  kapi_Get host (sys st) (queueDir m) (mkGetOptions true true) = (s, Failed e) →
  checkQueue host m st
    = (mkMinionState s (trace st ++ [EvGet (queueDir m) (mkGetOptions true true)]),
       None).
Proof. intros Hget. unfold checkQueue, Get. by rewrite Hget. Qed.



(** C9 (amended): whatever the child process returns, [processTask] leaves
    the task with [TimeProcessed] set to the time after the run, [Result] set
    to what the child printed, and [Error] set to the text of the child's
    error when there is one and left as it was received when there is none;
    it returns the child's error; and, the serialization succeeding, its one
    request to the store writes the serialized task under the log directory
    of the minion, at the key made of the task id. *)
Theorem processTask_saves_task m (t : MinionTask) st (s : Sys) (buf : string)
    (cmdError : option error) (data : string) :
  cmd_Run host (sys st) (Command t) (Args t) = (s, (buf, cmdError)) →
  json_Marshal_task host (processed t (time_Now_Unix host s) buf cmdError)
    = Ok data →
  ∃ st' new,
    processTask host m t st
      = (processed t (time_Now_Unix host s) buf cmdError, st', cmdError)
    ∧ trace st' = trace st ++ new
    ∧ without_log new
        = [ EvExec (Command t) (Args t);
            EvMarshal (Ok data);
            EvSet (filepath_Join host (logDir m) (TaskID t)) data
                  (mkSetOptions PrevIgnore 0) ].
Proof.
  intros Hrun Hmarshal.
  unfold processTask, saveTask, Set_, emit. cbn [sys trace]. rewrite Hrun.
  unfold processed in *.
  destruct cmdError as [e|]; cbn [TaskID Command Args IsConcurrent TimeReceived
    TimeProcessed Result Error_ sys trace] in *; rewrite Hmarshal;
    destruct (kapi_Set host _ _ _ _) as [s' [e'|]]; cbn [sys trace emit];
    rewrite <- ?app_assoc; eexists _, _;
    (split; [reflexivity|]; split; [reflexivity|done]).
Qed.

(** C10: of the three errors that the getters of a classifier return,
    [SetClassifier] looks at the one of [GetValue] only.  When that one is
    an error, it is returned and nothing is serialized or written.  When it
    is nil then, whatever [GetKey] and [GetDescription] returned as their
    errors, the classifier made of the three strings is serialized and, the
    serialization succeeding, written to the store under the classifier
    directory with a time to live of one hour; the error returned is the one
    of that write. *)
Theorem SetClassifier_checks_GetValue_only m (c : MinionClassifier) st
    (key description value data : string) (ekey edescription evalue : option error) :
  GetKey c = (key, ekey) →
  GetDescription c = (description, edescription) →
  GetValue c = (value, evalue) →
  json_Marshal_classifier host (NewSimpleClassifier key description value)
    = Ok data →
  match evalue with
  | Some e => SetClassifier host m c st = (st, Some e)
  | None =>
      ∃ st' new,
        SetClassifier host m c st
          = (st', (kapi_Set host (sys st)
                     (filepath_Join host (classifierDir m) key) data
                     (mkSetOptions PrevIgnore time_Hour)).2)
        ∧ trace st' = trace st ++ new
        ∧ without_log new
            = [ EvMarshal (Ok data);
                EvSet (filepath_Join host (classifierDir m) key) data
                      (mkSetOptions PrevIgnore time_Hour) ]
  end.
Proof.
  intros Hkey Hdescription Hvalue Hmarshal.
  unfold SetClassifier. rewrite Hkey, Hdescription, Hvalue.
  destruct evalue as [e|]; [done|].
  rewrite Hmarshal. unfold Set_, emit. cbn [sys trace].
  destruct (kapi_Set host _ _ _ _) as [s' [e'|]]; cbn [sys trace snd];
    rewrite <- ?app_assoc; eexists _, _;
    (split; [reflexivity|]; split; [reflexivity|done]).
Qed.

End MinionFacts.

(** The letter case of the action does not matter, and every action other
    than "delete" is handled like "set". *)
Example handled_actions {Sys : Type} (host : minion.Host Sys) (node : minion.Node) :
  handled host (Ok (minion.mkResponse "delete" node)) = []
  ∧ handled host (Ok (minion.mkResponse "DELETE" node)) = []
  ∧ handled host (Ok (minion.mkResponse "set" node)) = consume host node
  ∧ handled host (Ok (minion.mkResponse "create" node)) = consume host node
  ∧ handled host (Ok (minion.mkResponse "expire" node)) = consume host node.
Proof. repeat split. Qed.


(** The backlog of the example: both tasks are sent, in order, each after
    its key was deleted; the entry in between is deleted and dropped. *)
Example example_backlog_drained :
  without_log (minion.trace (minion.checkQueue example_host example_minion idle).1)
  = [ minion.EvGet "/gru/minion/m/queue" (minion.mkGetOptions true true);
      minion.EvUnmarshal "t1"; minion.EvDelete "/gru/minion/m/queue/t1";
      minion.EvSend (example_task "t1" "");
      minion.EvUnmarshal ""; minion.EvDelete "/gru/minion/m/queue/t1b";
      minion.EvUnmarshal "t2"; minion.EvDelete "/gru/minion/m/queue/t2";
      minion.EvSend (example_task "t2" "") ].
Proof. reflexivity. Qed.


Lemma processTask_witness :
  ∃ st' new,
    minion.processTask example_host example_minion (example_task "t1" "") idle
      = (processed (example_task "t1" "") 1446336000 "up 3 days" None, st', None)
    ∧ minion.trace st' = minion.trace idle ++ new
    ∧ without_log new
        = [ minion.EvExec "uptime" [];
            minion.EvMarshal (Ok "t1:up 3 days:");
            minion.EvSet "/gru/minion/m/log/t1" "t1:up 3 days:"
                         (minion.mkSetOptions minion.PrevIgnore 0) ].
Proof.
  apply (processTask_saves_task example_host example_minion
           (example_task "t1" "") idle tt "up 3 days" None "t1:up 3 days:");
    reflexivity.
Defined.

(** Against C9 as stated: a task arrives with a text in its field [Error];
    the command succeeds, and the task that is saved still carries it. *)
Lemma processTask_keeps_stale_error :
  minion.processTask example_host example_minion (example_task "t1" "stale") idle
  = (minion.mkMinionTask "t1" "uptime" [] false 0 1446336000 "up 3 days" "stale",
     minion.mkMinionState tt
       [ minion.EvLog ("Processing task t1" +:+ nl);
         minion.EvExec "uptime" [];
         minion.EvLog ("Finished processing task t1" +:+ nl);
         minion.EvMarshal (Ok "t1:up 3 days:stale");
         minion.EvSet "/gru/minion/m/log/t1" "t1:up 3 days:stale"
                      (minion.mkSetOptions minion.PrevIgnore 0) ],
     None).
Proof. reflexivity. Qed.

Lemma SetClassifier_witness :
  ∃ st' new,
    minion.SetClassifier example_host example_minion half_read idle
      = (st', None)
    ∧ minion.trace st' = minion.trace idle ++ new
    ∧ without_log new
        = [ minion.EvMarshal (Ok "=x86_64");
            minion.EvSet "/gru/minion/m/classifier/" "=x86_64"
                         (minion.mkSetOptions minion.PrevIgnore minion.time_Hour) ].
Proof.
  apply (SetClassifier_checks_GetValue_only example_host example_minion
           half_read idle "" "" "x86_64" "=x86_64"
           (Some (ErrOther "no key")) (Some (ErrOther "no description")) None);
    reflexivity.
Defined.

(** ** The periodic runner, the task runner and the start of the minion *)

Section MinionMore.
Import minion.
Context {Sys : Type} (host : Host Sys).
Implicit Types (st : MinionState Sys) (m : etcdMinion) (node : Node).


(** X13: when the task cannot be serialized, [processTask] asks nothing of
    the store: after the run of the command its only step besides the log is
    the failed serialization.  It still leaves the task with its result and
    returns the error of the command, which is nil when the command
    succeeded, so its caller does not learn that the result was not saved. *)
Theorem processTask_unserializable m (t : MinionTask) st (s : Sys) (buf : string)
    (cmdError : option error) (e : error) :
  cmd_Run host (sys st) (Command t) (Args t) = (s, (buf, cmdError)) →
  json_Marshal_task host (processed t (time_Now_Unix host s) buf cmdError)
    = Failed e →
  ∃ new,
    processTask host m t st
      = (processed t (time_Now_Unix host s) buf cmdError,
         mkMinionState s (trace st ++ new), cmdError)
    ∧ without_log new = [ EvExec (Command t) (Args t); EvMarshal (Failed e) ].
Proof.
  intros Hrun Hmarshal.
  unfold processTask, saveTask, emit. cbn [sys trace]. rewrite Hrun.
  unfold processed in *.
  destruct cmdError as [e'|]; cbn [TaskID Command Args IsConcurrent TimeReceived
    TimeProcessed Result Error_ sys trace] in *; rewrite Hmarshal;
    cbn [sys trace]; rewrite <- ?app_assoc; eexists; (split; [reflexivity|done]).
Qed.







(** The loop of [checkQueue] on a channel without a receiver. *)
Lemma range_backlog_trace (backlog : list Node) st :
  ∃ st' new,
    range_backlog host backlog st = (st', first_task host backlog)
    ∧ trace st' = trace st ++ new
    ∧ without_log new
        = flat_map (fun node => [EvUnmarshal (NodeValue node); EvDelete (NodeKey node)])
                   (upto_first_task host backlog).
Proof.
  revert st. induction backlog as [|node backlog IH]; intros st.
  { exists st, []. by rewrite app_nil_r. }
  cbn [range_backlog first_task upto_first_task].
  unfold EtcdUnmarshalTask, Delete, emit. cbn [sys trace].
  destruct (json_Unmarshal host (NodeValue node)) as [task [e|]];
    destruct (kapi_Delete host _ _) as [s err]; cbn [sys trace].
  - match goal with
    | |- context [range_backlog host backlog ?x] =>
        destruct (IH x) as (st' & new & -> & Htrace & Hw)
    end.
    cbn [trace] in Htrace. rewrite <- !app_assoc in Htrace.
    eexists _, _. split; [reflexivity|]. split; [exact Htrace|].
    cbn [flat_map app without_log]. by rewrite Hw.
  - rewrite <- !app_assoc. eexists _, _. split; [reflexivity|].
    split; [reflexivity|]. done.
Qed.

(** X16: [Serve] writes the name of the minion and drains the backlog on
    its own goroutine before it starts the listener and the runner, on a
    channel that nobody receives from yet.  So, the listing of the queue
    succeeding: when an entry of the backlog deserializes, [Serve] stays in
    the send of the first such task, having deleted the entries up to and
    including this one from the queue and started the periodic runner only;
    the signal on [quit] is then never received.  When no entry
    deserializes, every entry is deleted, the listener and the runner are
    started, and [Serve] waits for the signal, after which it returns. *)
Theorem Serve_stays_in_first_send m (quit : option string) st (s : Sys)
    (resp : Response) :
  kapi_Get host (sys (setName host m st).1) (queueDir m) (mkGetOptions true true)
    = (s, Ok resp) →
  ∃ st' new,
    Serve host m quit st
      = match first_task host (NodeNodes (RespNode resp)) with
        | Some task => mkServed st' [GoPeriodicRunner] (InSend task)
        | None =>
            mkServed st' [GoPeriodicRunner; GoTaskListener; GoTaskRunner]
                     (match quit with Some _ => ReturnedNil | None => InReceiveQuit end)
        end
    ∧ trace st' = trace st ++ new
    ∧ without_log new
        = EvSet (filepath_Join host (rootDir m) "name") (name m)
                (mkSetOptions PrevIgnore 0)
          :: EvGet (queueDir m) (mkGetOptions true true)
          :: flat_map (fun node => [EvUnmarshal (NodeValue node); EvDelete (NodeKey node)])
                      (upto_first_task host (NodeNodes (RespNode resp))).
Proof.
  unfold Serve, checkQueue_unreceived, setName, Set_, Get, emit.
  destruct (kapi_Set host _ _ _ _) as [s0 err0]. cbn [sys trace fst].
  intros ->.
  destruct (NodeNodes (RespNode resp)) as [|node nodes] eqn:Hnodes.
  { cbn [length first_task upto_first_task flat_map].
    rewrite bool_decide_eq_true_2 by done.
    destruct quit; cbn [app sys trace]; rewrite <- ?app_assoc; eexists _, _;
      (split; [reflexivity|]); (split; [reflexivity|done]). }
  rewrite bool_decide_eq_false_2 by done.
  match goal with
  | |- context [range_backlog host (node :: nodes) ?x] =>
      destruct (range_backlog_trace (node :: nodes) x) as (st' & new & -> & Htrace & Hw)
  end.
  cbn [sys trace] in Htrace. rewrite <- !app_assoc in Htrace.
  destruct (first_task host (node :: nodes)) as [task|].
  - eexists _, _. split; [reflexivity|]. split; [exact Htrace|].
    cbn [app without_log]. by rewrite Hw.
  - destruct quit; cbn [app].
    + eexists _, _. split; [reflexivity|]. cbn [trace].
      rewrite Htrace, <- !app_assoc. split; [reflexivity|].
      cbn [app without_log]. by rewrite without_log_app, Hw, app_nil_r.
    + eexists _, _. split; [reflexivity|]. split; [exact Htrace|].
      cbn [app without_log]. by rewrite Hw.
Qed.

End MinionMore.

Lemma processTask_unserializable_witness :
  ∃ new,
    minion.processTask mute_host example_minion (example_task "t1" "") idle
      = (processed (example_task "t1" "") 1446336000 "up 3 days" None,
         minion.mkMinionState tt (minion.trace idle ++ new), None)
    ∧ without_log new
        = [ minion.EvExec "uptime" [];
            minion.EvMarshal (Failed (ErrOther "json: unsupported value")) ].
Proof.
  apply (processTask_unserializable mute_host example_minion
           (example_task "t1" "") idle tt "up 3 days" None
           (ErrOther "json: unsupported value"));
    reflexivity.
Defined.

Lemma Serve_stays_in_first_send_witness :
  ∃ st' new,
    minion.Serve example_host example_minion None idle
      = match first_task example_host example_backlog with
        | Some task => minion.mkServed st' [minion.GoPeriodicRunner] (minion.InSend task)
        | None =>
            minion.mkServed st'
              [minion.GoPeriodicRunner; minion.GoTaskListener; minion.GoTaskRunner]
              minion.InReceiveQuit
        end
    ∧ minion.trace st' = minion.trace idle ++ new
    ∧ without_log new
        = minion.EvSet "/gru/minion/m/name" "m"
                       (minion.mkSetOptions minion.PrevIgnore 0)
          :: minion.EvGet "/gru/minion/m/queue" (minion.mkGetOptions true true)
          :: flat_map (fun node => [minion.EvUnmarshal (minion.NodeValue node);
                                    minion.EvDelete (minion.NodeKey node)])
                      (upto_first_task example_host example_backlog).
Proof.
  apply (Serve_stays_in_first_send example_host example_minion None idle tt
           (minion.mkResponse "get"
              (minion.mkNode "/gru/minion/m/queue" "" example_backlog))).
  reflexivity.
Defined.

(** ** The list command *)

Section ListFacts.
Import command.
Context {Sys : Type}.
Variable parseClassifierPattern : Sys -> string -> Sys * (list string * option error).
Variable MinionName : Sys -> string -> Sys * (string * option error).

(** The loop over the minions: either every name was read, and the table
    grew by one row per minion, or the loop stopped at the first failure. *)
Lemma range_minions_spec (minions : list string) (s : Sys)
    (table : list (string * string)) :
  ∃ s',
    (∃ rows,
       range_minions MinionName minions s table = (s', Ok (table ++ rows))
       ∧ rows.*1 = minions
       ∧ Forall (fun row => ∃ s1 s2, MinionName s1 row.1 = (s2, (row.2, None))) rows)
    ∨ (∃ e pre minion post s1 name,
         range_minions MinionName minions s table = (s', Failed e)
         ∧ minions = pre ++ minion :: post
         ∧ MinionName s1 minion = (s', (name, Some e))).
Proof.
  revert s table. induction minions as [|minion minions IH]; intros s table.
  { exists s. left. exists []. by rewrite app_nil_r. }
  cbn [range_minions].
  destruct (MinionName s minion) as [s1 [name [e|]]] eqn:Hname.
  { exists s1. right. by exists e, [], minion, minions, s, name. }
  destruct (IH s1 (table ++ [(minion, name)]))
    as (s' & [(rows & -> & Hrows & Hall)
             |(e & pre & minion' & post & s2 & name' & -> & -> & Hname')]);
    exists s'.
  - left. exists ((minion, name) :: rows). rewrite <- app_assoc.
    split; [done|]. split; [by rewrite fmap_cons, Hrows|].
    constructor; [by exists s, s1|done].
  - right. by exists e, (minion :: pre), minion', post, s2, name'.
Qed.

(** X17: [execListCommand] prints either nothing or one whole table.  It
    returns without printing when no minion matches; it prints the table,
    made of the header row and one row per minion in the order of the
    answer, only when the name of every minion was read; and it ends the
    process with code 1, without printing a table, when the pattern could
    not be resolved or the name of some minion could not be read. *)
Theorem execListCommand_prints_all_or_nothing (cFlag : string) (s s0 : Sys)
    (minions : list string) (err : option error) :
  parseClassifierPattern s cFlag = (s0, (minions, err)) →
  match (execListCommand parseClassifierPattern MinionName cFlag s).2 with
  | Return None => err = None ∧ minions = []
  | Return (Some table) =>
      err = None ∧ minions ≠ []
      ∧ ∃ rows,
          table = ("MINION", "NAME") :: rows
          ∧ rows.*1 = minions
          ∧ Forall (fun row => ∃ s1 s2, MinionName s1 row.1 = (s2, (row.2, None)))
                   rows
  | Exit code e =>
      code = 1%Z
      ∧ (err = Some e
         ∨ err = None ∧ ∃ minion s1 s2 name,
             minion ∈ minions ∧ MinionName s1 minion = (s2, (name, Some e)))
  end.
Proof.
  intros Hparse. unfold execListCommand. rewrite Hparse.
  destruct err as [e|]; [cbn [snd]; by auto|].
  destruct minions as [|minion minions]; [done|].
  rewrite bool_decide_eq_false_2 by done. cbn [app].
  destruct (range_minions_spec (minion :: minions) s0 [("MINION", "NAME")])
    as (s' & [(rows & -> & Hrows & Hall)
             |(e & pre & minion' & post & s1 & name & -> & Hsplit & Hname)]);
    cbn [snd].
  - split; [done|]. split; [done|]. by exists rows.
  - split; [done|]. right. split; [done|]. exists minion', s1, s', name.
    split; [|done]. rewrite Hsplit. apply elem_of_app. right. left.
Qed.

End ListFacts.

Lemma execListCommand_prints_all_or_nothing_witness :
  match (command.execListCommand example_parseClassifierPattern example_MinionName
           "" tt).2 with
  | command.Return None => @None error = None ∧ ["5f4c2a1e"; "9b7d3c0a"] = []
  | command.Return (Some table) =>
      @None error = None ∧ ["5f4c2a1e"; "9b7d3c0a"] ≠ []
      ∧ ∃ rows,
          table = ("MINION", "NAME") :: rows
          ∧ rows.*1 = ["5f4c2a1e"; "9b7d3c0a"]
          ∧ Forall (fun row => ∃ s1 s2,
                      example_MinionName s1 row.1 = (s2, (row.2, None)))
                   rows
  | command.Exit code e =>
      code = 1%Z
      ∧ (None = Some e
         ∨ @None error = None ∧ ∃ minion s1 s2 name,
             minion ∈ ["5f4c2a1e"; "9b7d3c0a"]
             ∧ example_MinionName s1 minion = (s2, (name, Some e)))
  end.
Proof.
  apply (execListCommand_prints_all_or_nothing example_parseClassifierPattern
           example_MinionName "" tt tt ["5f4c2a1e"; "9b7d3c0a"] None).
  reflexivity.
Defined.

